(** * Organization chart of the employee dashboard

    A shallow embedding of [src/pages/Organization.tsx]: the department
    filter, the construction of the manager/report forest
    ([buildOrgChart] with its local [sortNodes]), the expansion set
    ([toggleNode]) and the summary counts ([stats]).

    The page builds the forest by mutating objects that are shared through
    [employeeMap]: a node is reached both from the map and from the
    [children] array of its manager.  The embedding keeps that sharing: a
    node object is identified by the key under which [employeeMap] holds it,
    arrays hold such references, and every update goes through the map. *)

From stdpp Require Import gmap strings list sorting.
From Stdlib Require Import ZArith Lia.


(** ** Data model ([src/types/index.ts]) *)

Inductive Role := admin | manager | employee.

Global Instance Role_eq_dec : EqDecision Role.
Proof. solve_decision. Defined.

(** The attributes of [Employee] that the organization page reads.  The
    remaining ones (dates, salary, address, documents, ...) are copied along
    by the spread [{ ...emp }] and never inspected. *)
Record Employee := mkEmployee {
  id : string;
  name : string;
  email : string;
  contact : string;
  designation : string;
  department : string;
  managerId : option string;   (* [managerId?: string] *)
  role : Role;
  photoURL : option string
}.

(** A reference to a node object: the key of [employeeMap] that holds it. *)
Abbreviation Ref := string (only parsing).

(** [interface OrgNode extends Employee { children: OrgNode[] }] *)
Record OrgNode := mkOrgNode {
  emp : Employee;
  children : list Ref
}.

(** The objects alive after a build: the nodes held by [employeeMap] and the
    [rootNodes] array handed to [setOrgChart]. *)
Record Forest := mkForest {
  employeeMap : gmap string OrgNode;
  rootNodes : list Ref
}.

(** The arrays [sortNodes] can be called on. *)
Inductive ArrayRef := RootNodes | ChildrenOf (k : Ref).

Global Instance ArrayRef_eq_dec : EqDecision ArrayRef.
Proof. solve_decision. Defined.

Definition readArr (h : Forest) (a : ArrayRef) : list Ref :=
  match a with
  | RootNodes => rootNodes h
  | ChildrenOf k =>
      match employeeMap h !! k with
      | Some n => children n
      | None => []
      end
  end.

Definition setChildren (l : list Ref) (n : OrgNode) : OrgNode :=
  {| emp := emp n; children := l |}.

Definition writeArr (h : Forest) (a : ArrayRef) (l : list Ref) : Forest :=
  match a with
  | RootNodes => {| employeeMap := employeeMap h; rootNodes := l |}
  | ChildrenOf k =>
      {| employeeMap := alter (setChildren l) k (employeeMap h);
         rootNodes := rootNodes h |}
  end.

(** ** Department filter (lines 60-64) *)

Definition filterEmployees (employees : list Employee)
    (selectedDepartment : string) : list Employee :=
  if decide (selectedDepartment ≠ "all")
  then filter (λ e, department e = selectedDepartment) employees
  else employees.

(** ** Linking pass (lines 66-90) *)

(** First [forEach]: [employeeMap.set(emp.id, { ...emp, children: [] })]. *)
Definition newEmployeeMap (filteredEmployees : list Employee)
    : gmap string OrgNode :=
  foldl (λ m e, <[id e := {| emp := e; children := [] |}]> m)
        ∅ filteredEmployees.

(** JavaScript truthiness of an optional string: [undefined] and the empty
    string are falsy. *)
Definition truthy (s : option string) : bool :=
  match s with
  | Some s => negb (String.eqb s "")
  | None => false
  end.

Record LinkState := mkLinkState {
  ls_map : gmap string OrgNode;
  ls_rootNodes : list Ref;
  ls_childNodes : gset string
}.

(** [employeeMap.has(key)] and [employeeMap.get(key)] for an optional key. *)
Definition mapHas (m : gmap string OrgNode) (key : option string) : bool :=
  match key with
  | Some k => bool_decide (is_Some (m !! k))
  | None => false
  end.

Definition mapGet (m : gmap string OrgNode) (key : option string)
    : option OrgNode :=
  match key with
  | Some k => m !! k
  | None => None
  end.

(** Body of the second [forEach] (lines 77-89).  [push] appends a reference
    to the array; [manager.children.push(employee)] updates the node that
    [employeeMap] holds under [emp.managerId]. *)
Definition linkStep (st : LinkState) (e : Employee) : LinkState :=
  if negb (truthy (managerId e)) || negb (mapHas (ls_map st) (managerId e))
  then
    match ls_map st !! id e with
    | Some _ =>
        {| ls_map := ls_map st;
           ls_rootNodes := ls_rootNodes st ++ [id e];
           ls_childNodes := ls_childNodes st |}
    | None => st
    end
  else
    match managerId e, mapGet (ls_map st) (managerId e), ls_map st !! id e with
    | Some mid, Some _, Some _ =>
        {| ls_map :=
             alter (λ m, setChildren (children m ++ [id e]) m)
                   mid (ls_map st);
           ls_rootNodes := ls_rootNodes st;
           ls_childNodes := ls_childNodes st ∪ {[id e]} |}
    | _, _, _ => st
    end.

Definition linkNodes (filteredEmployees : list Employee) : LinkState :=
  foldl linkStep
        {| ls_map := newEmployeeMap filteredEmployees;
           ls_rootNodes := [];
           ls_childNodes := ∅ |}
        filteredEmployees.

(** ** Sorting pass (lines 92-108) *)

Definition roleOrder (r : Role) : Z :=
  match r with admin => 0 | manager => 1 | employee => 2 end.

(** [Array.prototype.sort] is stable; with a comparator it places [x] before
    [y] when the comparator is not positive and they were in that order.
    Insertion from the right end computes that result. *)
Fixpoint insertSorted {A} (cmp : A → A → Z) (x : A) (l : list A) : list A :=
  match l with
  | [] => [x]
  | y :: l' =>
      if decide (cmp x y ≤ 0)%Z then x :: l else y :: insertSorted cmp x l'
  end.

Definition jsSort {A} (cmp : A → A → Z) (l : list A) : list A :=
  foldr (insertSorted cmp) [] l.

(** Monadic [forEach] over the elements of an array. *)
Fixpoint forEachM {A S} (body : S → A → option S) (l : list A) (s : S)
    : option S :=
  match l with
  | [] => Some s
  | x :: l' =>
      match body s x with
      | Some s' => forEachM body l' s'
      | None => None
      end
  end.

Section Builder.

(** [String.prototype.localeCompare] depends on the collation of the host;
  it is a parameter of the build. *)
Context (localeCompare : string → string → Z).

(** The comparator passed to [nodes.sort] (lines 95-99). *)
Definition compareNodes (a b : Employee) : Z :=
let roleComparison := (roleOrder (role a) - roleOrder (role b))%Z in
if decide (roleComparison ≠ 0%Z) then roleComparison
else localeCompare (name a) (name b).

(** The same on references.  A reference that does not resolve stands for
  [undefined], which [sort] moves behind every defined element. *)
Definition compareRefs (m : gmap string OrgNode) (a b : Ref) : Z :=
match m !! a, m !! b with
| Some na, Some nb => compareNodes (emp na) (emp nb)
| Some _, None => (-1)%Z
| None, Some _ => 1%Z
| None, None => 0%Z
end.

(** [sortNodes]: sort the array in place, then recurse into the children of
  each of its elements.  [fuel] bounds the depth of the recursion; [None]
  is a recursion that does not come back within it.

  [forEach] reads the array while it runs.  The array can only change
  during the loop when a nested call reaches the same array again, and
  such a call never returns; the loop therefore runs over the elements as
  they are right after the sort. *)
Fixpoint sortNodes (fuel : nat) (h : Forest) (nodes : ArrayRef)
  : option Forest :=
match fuel with
| 0 => None
| S fuel' =>
    let h1 :=
      writeArr h nodes
        (jsSort (compareRefs (employeeMap h)) (readArr h nodes)) in
    forEachM
      (λ h node,
         if decide (0 < length (readArr h (ChildrenOf node)))
         then sortNodes fuel' h (ChildrenOf node)
         else Some h)
      (readArr h1 nodes) h1
end.

(** [buildOrgChart] (lines 59-110); the result is what [setOrgChart]
  receives. *)
Definition buildOrgChart (fuel : nat) (employees : list Employee)
  (selectedDepartment : string) : option Forest :=
let filteredEmployees := filterEmployees employees selectedDepartment in
let st := linkNodes filteredEmployees in
sortNodes fuel
  {| employeeMap := ls_map st; rootNodes := ls_rootNodes st |}
  RootNodes.

End Builder.

(** ** Walking the forest *)

(** The nodes below (and including) a node, parent first, in the order
    [renderOrgNode] meets them when every node is expanded. *)
Fixpoint walk (fuel : nat) (h : Forest) (k : Ref) : option (list Ref) :=
  match fuel with
  | 0 => None
  | S fuel' =>
      rest ← mapM (walk fuel' h) (readArr h (ChildrenOf k));
      Some (k :: concat rest)
  end.

Definition forestIds (fuel : nat) (h : Forest) : option (list Ref) :=
  trees ← mapM (walk fuel h) (rootNodes h);
  Some (concat trees).

(** ** Page state (lines 14-19) and its transitions *)

Record PageState := mkPageState {
  employees : list Employee;
  orgChart : Forest;
  expandedNodes : gset string;
  selectedDepartment : string;
  departments : list string
}.

(** [[...new Set(xs)]]: the distinct elements, each at its first
    occurrence. *)
Fixpoint uniqueDepts (seen : list string) (xs : list string) : list string :=
  match xs with
  | [] => []
  | x :: xs' =>
      if decide (x ∈ seen) then uniqueDepts seen xs'
      else x :: uniqueDepts (x :: seen) xs'
  end.

(** The state writes of [fetchEmployees] once the query has answered
    (lines 46-50). *)
Definition fetchEmployees (employeeList : list Employee) (st : PageState)
    : PageState :=
  {| employees := employeeList;
     orgChart := orgChart st;
     expandedNodes := expandedNodes st;
     selectedDepartment := selectedDepartment st;
     departments := uniqueDepts [] (department <$> employeeList) |}.

(** The [onChange] handler of the department select. *)
Definition setSelectedDepartment (d : string) (st : PageState) : PageState :=
  {| employees := employees st;
     orgChart := orgChart st;
     expandedNodes := expandedNodes st;
     selectedDepartment := d;
     departments := departments st |}.

(** The effect on [employees] and [selectedDepartment] (lines 25-29): the
    forest is rebuilt when the snapshot is not empty. *)
Definition rebuild (localeCompare : string → string → Z) (fuel : nat)
    (st : PageState) : option PageState :=
  if decide (0 < length (employees st)) then
    f ← buildOrgChart localeCompare fuel (employees st)
                      (selectedDepartment st);
    Some {| employees := employees st;
            orgChart := f;
            expandedNodes := expandedNodes st;
            selectedDepartment := selectedDepartment st;
            departments := departments st |}
  else Some st.

(** [toggleNode] (lines 112-120). *)
Definition toggleNode (nodeId : string) (st : PageState) : PageState :=
  let newExpanded :=
    if decide (nodeId ∈ expandedNodes st)
    then expandedNodes st ∖ {[nodeId]}
    else expandedNodes st ∪ {[nodeId]} in
  {| employees := employees st;
     orgChart := orgChart st;
     expandedNodes := newExpanded;
     selectedDepartment := selectedDepartment st;
     departments := departments st |}.

(** [expandedNodes.has(node.id)] in [renderOrgNode] (line 146). *)
Definition isExpanded (st : PageState) (nodeId : string) : bool :=
  bool_decide (nodeId ∈ expandedNodes st).

(** [stats] (lines 217-223). *)
Record Stats := mkStats {
  totalEmployees : nat;
  admins : nat;
  managers : nat;
  employeesCount : nat;      (* the field [employees] of [stats] *)
  departmentsCount : nat     (* the field [departments] of [stats] *)
}.

Definition stats (st : PageState) : Stats :=
  {| totalEmployees := length (employees st);
     admins := length (filter (λ e, role e = admin) (employees st));
     managers := length (filter (λ e, role e = manager) (employees st));
     employeesCount := length (filter (λ e, role e = employee) (employees st));
     departmentsCount := length (departments st) |}.

(** The state the page starts in (lines 14-19). *)
Definition initialState : PageState :=
  {| employees := [];
     orgChart := {| employeeMap := ∅; rootNodes := [] |};
     expandedNodes := ∅;
     selectedDepartment := "all";
     departments := [] |}.

(** What makes the page rebuild the forest: a new snapshot or another
    department in the select. *)
Inductive Change :=
  | NewSnapshot (employeeList : list Employee)
  | NewDepartment (d : string).

Definition applyChange (c : Change) (st : PageState) : PageState :=
  match c with
  | NewSnapshot l => fetchEmployees l st
  | NewDepartment d => setSelectedDepartment d st
  end.

(** ** Manager chains *)

(** The record that [employeeMap] keeps for an id: the last one set. *)
Definition recordOf (fl : list Employee) (x : string) : option Employee :=
  last (filter (λ e, id e = x) fl).

Definition hasId (fl : list Employee) (k : string) : bool :=
  bool_decide (k ∈ id <$> fl).

(** The test of line 77 against the finished [employeeMap]. *)
Definition isRootOf (fl : list Employee) (e : Employee) : bool :=
  negb (truthy (managerId e)) ||
  negb (match managerId e with Some k => hasId fl k | None => false end).

Definition reportsTo (fl : list Employee) (k : string) (e : Employee) : bool :=
  negb (isRootOf fl e) && bool_decide (managerId e = Some k).

(** The manager edge the builder follows for the node of an id. *)
Definition managerOf (fl : list Employee) (x : string) : option string :=
  e ← recordOf fl x;
  if isRootOf fl e then None else managerId e.

(** [n] steps up a parent function. *)
Fixpoint chainUp (parent : string → option string) (n : nat) (x : string)
    : option string :=
  match n with
  | 0 => Some x
  | S n' => chainUp parent n' x ≫= parent
  end.

(** The manager chain of [x] ends, after some steps, at a node without a
    manager edge. *)
Definition reachesTop (fl : list Employee) (x : string) : bool :=
  existsb
    (λ d, match chainUp (managerOf fl) d x with
          | Some r => hasId fl r && bool_decide (managerOf fl r = None)
          | None => false
          end)
    (seq 0 (length fl)).

(** The manager chain of [x] comes back to [x]. *)
Definition onCycle (fl : list Employee) (x : string) : Prop :=
  ∃ j, 0 < j ∧ chainUp (managerOf fl) j x = Some x.

(** Paths that descend through [children] arrays. *)
Inductive descent (h : Forest) : Ref → list Ref → Prop :=
  | descent_end k : descent h k [k]
  | descent_step k c p :
      c ∈ readArr h (ChildrenOf k) → descent h c p → descent h k (k :: p).

Inductive reach (h : Forest) : Ref → Ref → Prop :=
  | reach_here k : reach h k k
  | reach_child k c k' :
      c ∈ readArr h (ChildrenOf k) → reach h c k' → reach h k k'.

(** Sibling order: role priority first, then the name comparison. *)
Definition siblingLe (localeCompare : string → string → Z)
    (a b : Employee) : Prop :=
  (roleOrder (role a) < roleOrder (role b))%Z ∨
  (role a = role b ∧ (localeCompare (name a) (name b) ≤ 0)%Z).

(** The records of the nodes an array refers to. *)
Definition nodesOf (h : Forest) (a : ArrayRef) : list Employee :=
  omap (λ k, emp <$> employeeMap h !! k) (readArr h a).

(** A comparator that orders consistently, as [sort] expects. *)
Record Consistent {A} (cmp : A → A → Z) : Prop := {
  cmp_total : ∀ a b, (cmp a b ≤ 0)%Z ∨ (cmp b a ≤ 0)%Z;
  cmp_trans : ∀ a b c, (cmp a b ≤ 0)%Z → (cmp b c ≤ 0)%Z → (cmp a c ≤ 0)%Z
}.

(** Code-point order of strings with a numeric result, an instance of
    [localeCompare]. *)
Definition codePointCompare (a b : string) : Z :=
  match String.compare a b with
  | Lt => (-1)%Z
  | Eq => 0%Z
  | Gt => 1%Z
  end.

(** ** Relations between forests *)

(** The same records under the same keys, and every array holding the same
    references up to their order. *)
Definition sameShape (h h' : Forest) : Prop :=
  (∀ k, emp <$> employeeMap h' !! k = emp <$> employeeMap h !! k) ∧
  (∀ a, readArr h' a ≡ₚ readArr h a).

(** Every descent that starts in the array [a] ends within [n] levels: the
    recursion of [sortNodes] on [a] is at most [n] calls deep. *)
Fixpoint Bounded (h : Forest) (n : nat) (a : ArrayRef) : Prop :=
  match n with
  | 0 => False
  | S n' =>
      ∀ k, k ∈ readArr h a → 0 < length (readArr h (ChildrenOf k)) →
           Bounded h n' (ChildrenOf k)
  end.

Definition sortedArr (localeCompare : string → string → Z) (h : Forest)
    (a : ArrayRef) : Prop :=
  StronglySorted
    (λ x y, (compareRefs localeCompare (employeeMap h) x y ≤ 0)%Z)
    (readArr h a).

Definition sortedBelow (localeCompare : string → string → Z) (h : Forest)
    (k : Ref) : Prop :=
  ∀ k', reach h k k' → sortedArr localeCompare h (ChildrenOf k').

Definition keepsSorted (localeCompare : string → string → Z)
    (h h' : Forest) : Prop :=
  sameShape h h' ∧
  ∀ a, sortedArr localeCompare h a → sortedArr localeCompare h' a.

(** The forest as the linking pass leaves it, before the sort. *)
Definition linked (fl : list Employee) : Forest :=
  {| employeeMap := ls_map (linkNodes fl);
     rootNodes := ls_rootNodes (linkNodes fl) |}.

(** [x] sits [d] edges below a node of [ids] that has no parent. *)
Definition level (ids : list string) (parent : string → option string)
    (d : nat) (x : string) : Prop :=
  ∃ r, chainUp parent d x = Some r ∧ r ∈ ids ∧ parent r = None.

(** How often [x] occurs in a list. *)
Definition occurrences (x : string) (l : list string) : nat :=
  length (filter (λ y, y = x) l).

(** No manager was entered: the field is absent, or the empty string that
    the employee form stores for "no manager". *)
Definition managerUnset (e : Employee) : Prop :=
  managerId e = None ∨ managerId e = Some "".

(** ** Sample snapshots *)

Definition sample (i n d : string) (m : option string) (r : Role)
    : Employee :=
  {| id := i; name := n; email := ""; contact := ""; designation := "";
     department := d; managerId := m; role := r; photoURL := None |}.

(** Alice leads Bob and Dave, Bob leads Carol. *)
Definition fourPeople : list Employee :=
  [ sample "a" "Alice" "Eng" None admin;
    sample "b" "Bob" "Eng" (Some "a") manager;
    sample "c" "Carol" "Eng" (Some "b") employee;
    sample "d" "Dave" "Eng" (Some "a") employee ].

(** A record that names itself as its manager. *)
Definition selfManaged : list Employee :=
  [ sample "x" "Xavier" "Eng" (Some "x") employee ].

(** Two records that manage each other, next to a regular root. *)
Definition mutualManagers : list Employee :=
  [ sample "p" "Pat" "Eng" (Some "q") manager;
    sample "q" "Quinn" "Eng" (Some "p") manager;
    sample "r" "Robin" "Eng" None admin ].

(** Two records under one id. *)
Definition sharedId : list Employee :=
  [ sample "a" "Ann" "Eng" None manager;
    sample "a" "Anna" "Ops" None employee ].

(** Two roots and two levels of reports, every sequence of siblings given
    in the reverse of the sibling order. *)
Definition unorderedTeam : list Employee :=
  [ sample "0" "Eve" "Eng" None admin;
    sample "1" "Ada" "Eng" None admin;
    sample "2" "Zoe" "Eng" (Some "1") employee;
    sample "3" "Yan" "Eng" (Some "1") employee;
    sample "4" "Max" "Eng" (Some "1") manager;
    sample "5" "Tia" "Eng" (Some "4") employee;
    sample "6" "Sol" "Eng" (Some "4") employee ].

(** A Sales employee whose manager works in Eng. *)
Definition salesUnderEng : list Employee :=
  [ sample "m" "Mia" "Eng" None manager;
    sample "s" "Sam" "Sales" (Some "m") employee;
    sample "t" "Tom" "Sales" (Some "s") employee ].

(** ** Expansion controls and rendering of the chart *)

(** "Expand All" (line 312) and "Collapse All" (line 319). *)
Definition expandAll (st : PageState) : PageState :=
  {| employees := employees st;
     orgChart := orgChart st;
     expandedNodes := list_to_set (id <$> employees st);
     selectedDepartment := selectedDepartment st;
     departments := departments st |}.

Definition collapseAll (st : PageState) : PageState :=
  {| employees := employees st;
     orgChart := orgChart st;
     expandedNodes := ∅;
     selectedDepartment := selectedDepartment st;
     departments := departments st |}.

(** The values of the department select (lines 303-308). *)
Definition departmentOptions (st : PageState) : list string :=
  "all" :: departments st.

(** [renderOrgNode] (lines 144-215), reduced to the cards it puts on the
    page: the [node.id] of every node it renders, with its nesting [level],
    in document order.  The children are rendered when the node has some and
    its id is in [expandedNodes].  [fuel] bounds the depth of the recursion;
    a reference always resolves, the [None] of that case is never met. *)
Fixpoint renderOrgNode (fuel : nat) (expanded : gset string) (h : Forest)
    (node : Ref) (level : nat) : option (list (string * nat)) :=
  match fuel with
  | 0 => None
  | S fuel' =>
      n ← employeeMap h !! node;
      let hasChildren := bool_decide (0 < length (children n)) in
      let isExpanded := bool_decide (id (emp n) ∈ expanded) in
      if hasChildren && isExpanded then
        below ← mapM (λ child, renderOrgNode fuel' expanded h child (level + 1))
                     (children n);
        Some ((id (emp n), level) :: concat below)
      else Some [(id (emp n), level)]
  end.

(** The chart area (lines 330-345): a message when [orgChart] is empty, the
    cards of every root otherwise. *)
Inductive ChartView :=
  | EmptyChart (message : string)
  | ChartCards (cards : list (string * nat)).

Definition renderChart (fuel : nat) (st : PageState) : option ChartView :=
  if decide (length (rootNodes (orgChart st)) = 0) then
    Some (EmptyChart
            (if decide (selectedDepartment st ≠ "all")
             then "No employees found in " +:+ selectedDepartment st
                  +:+ " department."
             else "Add employees to see the organization chart."))
  else
    cards ← mapM (λ node, renderOrgNode fuel (expandedNodes st) (orgChart st)
                                         node 0)
                 (rootNodes (orgChart st));
    Some (ChartCards (concat cards)).

(** ** Reports page (lines 352-520 of the same file) *)

(** The documents the summaries read, with the fields the page looks at. *)
Record TaskDoc := mkTaskDoc { taskStatus : string; assignedTo : string }.
Record LeaveDoc := mkLeaveDoc { leaveStatus : string; leaveEmployeeId : string }.
Record AttendanceDoc :=
  mkAttendanceDoc { attendanceStatus : string; attendanceEmployeeId : string }.

(** The queries of lines 371-373, 385-387 and 399-401: an employee reads the
    documents that carry the own uid, every other role reads them all. *)
Definition reportQuery {A} (owner : A → string) (r : Role) (uid : string)
    (collection : list A) : list A :=
  if decide (r = employee) then filter (λ d, owner d = uid) collection
  else collection.

Record TaskSummary := mkTaskSummary {
  taskTotal : nat; taskCompleted : nat; taskInProgress : nat;
  taskPending : nat
}.

(** Body of [tasksSnap.forEach] (lines 376-382). *)
Definition countTask (s : TaskSummary) (t : TaskDoc) : TaskSummary :=
  if decide (taskStatus t = "completed") then
    mkTaskSummary (taskTotal s + 1) (taskCompleted s + 1) (taskInProgress s)
                  (taskPending s)
  else if decide (taskStatus t = "in-progress") then
    mkTaskSummary (taskTotal s + 1) (taskCompleted s) (taskInProgress s + 1)
                  (taskPending s)
  else
    mkTaskSummary (taskTotal s + 1) (taskCompleted s) (taskInProgress s)
                  (taskPending s + 1).

Definition summarizeTasks (r : Role) (uid : string) (tasks : list TaskDoc)
    : TaskSummary :=
  foldl countTask (mkTaskSummary 0 0 0 0) (reportQuery assignedTo r uid tasks).

Record LeaveSummary := mkLeaveSummary {
  leaveTotal : nat; leaveApproved : nat; leaveRejected : nat;
  leavePending : nat
}.

(** Body of [leaveSnap.forEach] (lines 390-396). *)
Definition countLeave (s : LeaveSummary) (l : LeaveDoc) : LeaveSummary :=
  if decide (leaveStatus l = "approved") then
    mkLeaveSummary (leaveTotal s + 1) (leaveApproved s + 1) (leaveRejected s)
                   (leavePending s)
  else if decide (leaveStatus l = "rejected") then
    mkLeaveSummary (leaveTotal s + 1) (leaveApproved s) (leaveRejected s + 1)
                   (leavePending s)
  else
    mkLeaveSummary (leaveTotal s + 1) (leaveApproved s) (leaveRejected s)
                   (leavePending s + 1).

Definition summarizeLeave (r : Role) (uid : string) (leaves : list LeaveDoc)
    : LeaveSummary :=
  foldl countLeave (mkLeaveSummary 0 0 0 0)
        (reportQuery leaveEmployeeId r uid leaves).

Record AttendanceSummary := mkAttendanceSummary {
  attPresent : nat; attAbsent : nat; attLate : nat; attHalfDay : nat
}.

(** Body of [attSnap.forEach] (lines 404-410); a status outside the four
    falls through every branch. *)
Definition countAttendance (s : AttendanceSummary) (a : AttendanceDoc)
    : AttendanceSummary :=
  if decide (attendanceStatus a = "present") then
    mkAttendanceSummary (attPresent s + 1) (attAbsent s) (attLate s)
                        (attHalfDay s)
  else if decide (attendanceStatus a = "absent") then
    mkAttendanceSummary (attPresent s) (attAbsent s + 1) (attLate s)
                        (attHalfDay s)
  else if decide (attendanceStatus a = "late") then
    mkAttendanceSummary (attPresent s) (attAbsent s) (attLate s + 1)
                        (attHalfDay s)
  else if decide (attendanceStatus a = "half-day") then
    mkAttendanceSummary (attPresent s) (attAbsent s) (attLate s)
                        (attHalfDay s + 1)
  else s.

Definition summarizeAttendance (r : Role) (uid : string)
    (records : list AttendanceDoc) : AttendanceSummary :=
  foldl countAttendance (mkAttendanceSummary 0 0 0 0)
        (reportQuery attendanceEmployeeId r uid records).

(** ** Route guard, routes and navigation *)

(** The part of [User] ([src/types/index.ts]) the guard and the sidebar
    read. *)
Record User := mkUser {
  uid : string;
  displayName : string;
  userRole : Role            (* the field [role] of [User] *)
}.

(** The string a role is written as. *)
Definition roleName (r : Role) : string :=
  match r with
  | admin => "admin"
  | manager => "manager"
  | employee => "employee"
  end.

(** What [ProtectedRoute] returns. *)
Inductive Guarded :=
  | Spinner                (* <LoadingSpinner /> *)
  | ToLogin                (* <Navigate to="/login" /> *)
  | ToUnauthorized         (* <Navigate to="/unauthorized" /> *)
  | Children.              (* the wrapped element *)

(** [ProtectedRoute] ([components/ProtectedRoute.tsx], kept as
    [unnamed/part_002], lines 11-27). *)
Definition ProtectedRoute (loading : bool) (currentUser : option User)
    (requiredRoles : list string) : Guarded :=
  if loading then Spinner
  else
    match currentUser with
    | None => ToLogin
    | Some u =>
        if bool_decide (0 < length requiredRoles) &&
           negb (bool_decide (roleName (userRole u) ∈ requiredRoles))
        then ToUnauthorized
        else Children
    end.

Inductive Page :=
  | LoginPage | RegisterPage | UnauthorizedPage
  | DashboardPage | ProfilePage | EmployeesPage | TasksPage | AttendancePage
  | LeaveRequestsPage | ReportsPage | InsightsPage | OrganizationPage.

(** The routes below the layout ([App.tsx], lines 53-78): the path, the
    roles of the inner [ProtectedRoute] when the element has one, and the
    page. *)
Definition layoutRoutes : list (string * (option (list string) * Page)) :=
  [ ("dashboard", (None, DashboardPage));
    ("profile", (None, ProfilePage));
    ("employees", (Some ["admin"; "manager"], EmployeesPage));
    ("tasks", (None, TasksPage));
    ("attendance", (None, AttendancePage));
    ("leave", (None, LeaveRequestsPage));
    ("reports", (Some ["admin"; "manager"], ReportsPage));
    ("insights", (None, InsightsPage));
    ("organization", (Some ["admin"; "manager"], OrganizationPage)) ].

(** What the element of a matched route puts on the screen. *)
Inductive Screen :=
  | ShowPage (p : Page)        (* the page, inside the layout *)
  | ShowSpinner
  | RedirectTo (href : string).

(** A guard around an element: the element is rendered when the guard
    returns its children. *)
Definition guardScreen (g : Guarded) (inside : Screen) : Screen :=
  match g with
  | Spinner => ShowSpinner
  | ToLogin => RedirectTo "/login"
  | ToUnauthorized => RedirectTo "/unauthorized"
  | Children => inside
  end.

(** What a route below the layout renders once the router has matched it
    ([App.tsx], lines 48-77): the guard around the layout, which names no
    roles, and inside the layout the element of the route, with its own
    guard when it has one. *)
Definition enterRoute (loading : bool) (currentUser : option User)
    (route : option (list string) * Page) : Screen :=
  guardScreen (ProtectedRoute loading currentUser [])
    (match route.1 with
     | None => ShowPage route.2
     | Some roles =>
         guardScreen (ProtectedRoute loading currentUser roles)
                     (ShowPage route.2)
     end).

(** An entry of the sidebar ([components/Layout.tsx], lines 37-46). *)
Record NavItem := mkNavItem {
  navName : string;
  navHref : string;
  navRoles : list string
}.

Definition navigation : list NavItem :=
  [ mkNavItem "Dashboard" "/dashboard" ["admin"; "manager"; "employee"];
    mkNavItem "Employees" "/employees" ["admin"; "manager"];
    mkNavItem "Tasks" "/tasks" ["admin"; "manager"; "employee"];
    mkNavItem "Attendance" "/attendance" ["admin"; "manager"; "employee"];
    mkNavItem "Leave Requests" "/leave" ["admin"; "manager"; "employee"];
    mkNavItem "Reports" "/reports" ["admin"; "manager"];
    mkNavItem "Insights" "/insights" ["admin"; "manager"; "employee"];
    mkNavItem "Organization" "/organization" ["admin"; "manager"] ].

(** [filteredNavigation] (lines 47-49): without a user the sidebar falls
    back to the entries of an employee. *)
Definition filteredNavigation (currentUser : option User) : list NavItem :=
  filter
    (λ item,
       match currentUser with
       | Some u => roleName (userRole u)
       | None => "employee"
       end ∈ navRoles item)
    navigation.

(** * Properties *)

(** ** Lists, sorting and loops *)

Lemma insertSorted_perm {A} (cmp : A → A → Z) x l :
  insertSorted cmp x l ≡ₚ x :: l.
Proof.
  induction l as [|y l IH]; simpl; [done|].
  case_decide; [done|]. rewrite IH. apply Permutation_swap.
Qed.

Lemma jsSort_perm {A} (cmp : A → A → Z) l : jsSort cmp l ≡ₚ l.
Proof.
  induction l as [|x l IH]; simpl; [done|].
  rewrite insertSorted_perm. by rewrite IH.
Qed.

Section SortSorted.
Context {A : Type} (cmp : A → A → Z) (Hc : Consistent cmp).

Lemma insertSorted_sorted x l :
  StronglySorted (λ a b, (cmp a b ≤ 0)%Z) l →
  StronglySorted (λ a b, (cmp a b ≤ 0)%Z) (insertSorted cmp x l).
Proof.
  induction 1 as [|y l Hl IH Hy]; simpl.
  - repeat constructor.
  - case_decide as Hxy.
    + constructor; [by constructor|].
      constructor; [done|].
      eapply Forall_impl; [exact Hy|].
      intros z Hz. eapply cmp_trans; eauto.
    + constructor; [done|].
      rewrite insertSorted_perm. constructor; [|done].
      destruct (cmp_total _ Hc x y); [done|done].
Qed.

Lemma jsSort_sorted l :
  StronglySorted (λ a b, (cmp a b ≤ 0)%Z) (jsSort cmp l).
Proof.
  induction l as [|x l IH]; simpl; [constructor|].
  by apply insertSorted_sorted.
Qed.
End SortSorted.

Lemma StronglySorted_mono {A} (R R' : A → A → Prop) l :
  (∀ x y, R x y → R' x y) → StronglySorted R l → StronglySorted R' l.
Proof.
  intros HR. induction 1 as [|x l _ IH Hx]; constructor; [done|].
  eapply Forall_impl; [exact Hx|]. auto.
Qed.

Lemma forEachM_inv {A S} (R : S → S → Prop) (body : S → A → option S) l :
  (∀ s, R s s) → (∀ s1 s2 s3, R s1 s2 → R s2 s3 → R s1 s3) →
  (∀ s x s', x ∈ l → body s x = Some s' → R s s') →
  ∀ s s', forEachM body l s = Some s' → R s s'.
Proof.
  intros Hrefl Htrans. induction l as [|x l IH]; intros Hbody s s' Hrun.
  - simpl in Hrun. by simplify_eq.
  - simpl in Hrun. destruct (body s x) as [s1|] eqn:Hx; [|done].
    eapply Htrans.
    + eapply Hbody; [left|exact Hx].
    + apply IH; [|done]. intros ??? Hin. apply Hbody. by right.
Qed.

Lemma forEachM_total {A S} (I : S → Prop) (body : S → A → option S) l :
  (∀ s x, x ∈ l → I s → ∃ s', body s x = Some s' ∧ I s') →
  ∀ s, I s → ∃ s', forEachM body l s = Some s' ∧ I s'.
Proof.
  induction l as [|x l IH]; intros Hbody s Hs; simpl.
  - eauto.
  - destruct (Hbody s x) as (s1 & -> & Hs1); [left|done|].
    apply IH; [|done]. intros ?? Hin. apply Hbody. by right.
Qed.

(** ** Arrays of a forest *)

Lemma emp_writeArr h a l k :
  emp <$> employeeMap (writeArr h a l) !! k = emp <$> employeeMap h !! k.
Proof.
  destruct a as [|k0]; simpl; [done|].
  rewrite lookup_alter. case_decide; [|done]. subst.
  by destruct (employeeMap h !! k).
Qed.

Lemma readArr_writeArr_ne h a a' l :
  a ≠ a' → readArr (writeArr h a l) a' = readArr h a'.
Proof.
  intros Hne. destruct a as [|k], a' as [|k']; simpl; try done.
  rewrite lookup_alter. case_decide; [|done]. by subst.
Qed.

Lemma readArr_writeArr_eq h a l :
  l ≡ₚ readArr h a → readArr (writeArr h a l) a = l.
Proof.
  intros Hl. destruct a as [|k]; simpl in *; [done|].
  rewrite lookup_alter. case_decide; [|done].
  destruct (employeeMap h !! k); simpl; [done|].
  symmetry. by apply Permutation_nil_r.
Qed.

Lemma sameShape_refl h : sameShape h h.
Proof. by split. Qed.

Lemma sameShape_trans h1 h2 h3 :
  sameShape h1 h2 → sameShape h2 h3 → sameShape h1 h3.
Proof.
  intros [E1 P1] [E2 P2]. split.
  - intros k. by rewrite E2.
  - intros a. by rewrite P2.
Qed.

Lemma sameShape_writeArr h a l :
  l ≡ₚ readArr h a → sameShape h (writeArr h a l).
Proof.
  intros Hl. split; [intros; apply emp_writeArr|].
  intros a'. destruct (decide (a = a')) as [<-|Hne].
  - by rewrite readArr_writeArr_eq.
  - by rewrite readArr_writeArr_ne.
Qed.

Section SortNodes.
Context (localeCompare : string → string → Z).

Lemma sortNodes_shape fuel : ∀ h a h',
  sortNodes localeCompare fuel h a = Some h' → sameShape h h'.
Proof.
  induction fuel as [|fuel IH]; intros h a h' Hrun; [done|].
  simpl in Hrun.
  eapply sameShape_trans; [apply sameShape_writeArr, jsSort_perm|].
  eapply (forEachM_inv sameShape); [| | |exact Hrun].
  - apply sameShape_refl.
  - apply sameShape_trans.
  - intros s x s' _ Hbody. simpl in Hbody. case_decide; [by eapply IH|].
    simplify_eq. apply sameShape_refl.
Qed.

Lemma Bounded_shape h h' n : ∀ a,
  sameShape h h' → Bounded h n a → Bounded h' n a.
Proof.
  induction n as [|n IH]; intros a Hs Hb; [done|].
  simpl in *. intros k Hk Hlen. destruct Hs as [He Hp].
  apply IH; [by split|]. apply Hb.
  - by rewrite <- (Hp a).
  - by rewrite <- (Hp (ChildrenOf k)).
Qed.

(** The recursion comes back when the descents are bounded. *)
Lemma sortNodes_total n : ∀ fuel h a,
  Bounded h n a → n ≤ fuel →
  ∃ h', sortNodes localeCompare fuel h a = Some h'.
Proof.
  induction n as [|n IH]; intros fuel h a Hb Hle; [done|].
  destruct fuel as [|fuel]; [lia|]. simpl.
  set (h1 := writeArr h a _).
  assert (sameShape h h1) as Hh1 by apply sameShape_writeArr, jsSort_perm.
  assert (∃ s', forEachM
            (λ h0 node,
               if decide (0 < length (readArr h0 (ChildrenOf node)))
               then sortNodes localeCompare fuel h0 (ChildrenOf node)
               else Some h0)
            (readArr h1 a) h1 = Some s' ∧ sameShape h s')
    as (h' & Hrun & _); [|eauto].
  apply forEachM_total; [|done].
  intros s x Hx Hs. case_decide as Hlen; [|eauto].
  destruct (IH fuel s (ChildrenOf x)) as [s' Hs']; [|lia|].
  - apply (Bounded_shape h); [done|]. apply Hb.
    + by rewrite <- (proj2 Hh1 a).
    + by rewrite <- (proj2 Hs (ChildrenOf x)).
  - exists s'. split; [done|].
    eapply sameShape_trans; [done|]. by eapply sortNodes_shape.
Qed.
End SortNodes.

(** ** The comparator *)

Lemma roleOrder_inj r1 r2 : roleOrder r1 = roleOrder r2 → r1 = r2.
Proof. by destruct r1, r2. Qed.

Lemma compareNodes_le lc a b :
  (compareNodes lc a b ≤ 0)%Z ↔ siblingLe lc a b.
Proof.
  unfold compareNodes, siblingLe. cbv zeta. case_decide as Hr.
  - split; [intros; left; lia|].
    intros [?|[Heq _]]; [lia|]. rewrite Heq in Hr. lia.
  - assert (role a = role b) by (apply roleOrder_inj; lia).
    split; [by right|]. intros [?|[_ ?]]; [lia|done].
Qed.

Section Comparator.
Context (lc : string → string → Z) (Hlc : Consistent lc).

Lemma compareNodes_consistent : Consistent (compareNodes lc).
Proof.
  split.
  - intros a b. rewrite !compareNodes_le. unfold siblingLe.
    destruct (decide (role a = role b)) as [Heq|Hne].
    + destruct (cmp_total _ Hlc (name a) (name b)); [left|right]; by right.
    + assert (roleOrder (role a) ≠ roleOrder (role b))
        by (intros ?; by apply Hne, roleOrder_inj).
      destruct (decide (roleOrder (role a) < roleOrder (role b))%Z);
        [left|right]; left; lia.
  - intros a b c. rewrite !compareNodes_le. unfold siblingLe.
    intros [?|[E1 ?]] [?|[E2 ?]].
    + left; lia.
    + left. rewrite <- E2. lia.
    + left. rewrite E1. lia.
    + right. split; [congruence|]. eapply cmp_trans; eauto.
Qed.

Lemma compareRefs_consistent m : Consistent (compareRefs lc m).
Proof.
  pose proof compareNodes_consistent as Hn. split.
  - intros a b. unfold compareRefs.
    destruct (m !! a), (m !! b); try lia. apply (cmp_total _ Hn).
  - intros a b c. unfold compareRefs.
    destruct (m !! a), (m !! b), (m !! c); try lia.
    apply (cmp_trans _ Hn).
Qed.
End Comparator.

Lemma compareRefs_shape lc (m m' : gmap string OrgNode) x y :
  (∀ k, emp <$> m' !! k = emp <$> m !! k) →
  compareRefs lc m' x y = compareRefs lc m x y.
Proof.
  intros He. unfold compareRefs.
  pose proof (He x) as Hx. pose proof (He y) as Hy.
  destruct (m' !! x), (m !! x), (m' !! y), (m !! y);
    simpl in *; try done.
  injection Hx as ->. by injection Hy as ->.
Qed.

(** ** The sorting pass orders every array it reaches *)

Lemma reach_shape h h' k k' : sameShape h h' → reach h' k k' → reach h k k'.
Proof.
  intros [_ Hp]. induction 1 as [|k c k' Hc _ IH]; [constructor|].
  econstructor; [|exact IH]. by rewrite <- (Hp (ChildrenOf k)).
Qed.

Section SortedPass.
Context (lc : string → string → Z) (Hlc : Consistent lc).

Lemma sortedArr_shape h h' a :
  sameShape h h' → readArr h' a = readArr h a →
  sortedArr lc h a → sortedArr lc h' a.
Proof.
  intros [He _] Hr. unfold sortedArr. rewrite Hr.
  apply StronglySorted_mono. intros x y.
  by rewrite (compareRefs_shape lc (employeeMap h) (employeeMap h')).
Qed.

Lemma keepsSorted_refl h : keepsSorted lc h h.
Proof. split; [apply sameShape_refl|done]. Qed.

Lemma keepsSorted_trans h1 h2 h3 :
  keepsSorted lc h1 h2 → keepsSorted lc h2 h3 → keepsSorted lc h1 h3.
Proof.
  intros [S1 K1] [S2 K2]. split; [by eapply sameShape_trans|]. auto.
Qed.

Lemma sorted_after_sort h a :
  let h1 := writeArr h a (jsSort (compareRefs lc (employeeMap h))
                                 (readArr h a)) in
  keepsSorted lc h h1 ∧ sortedArr lc h1 a.
Proof.
  intros h1.
  assert (sameShape h h1) as Hs by apply sameShape_writeArr, jsSort_perm.
  assert (sortedArr lc h1 a) as Ha.
  { unfold sortedArr, h1. rewrite readArr_writeArr_eq by apply jsSort_perm.
    eapply StronglySorted_mono;
      [|apply jsSort_sorted, compareRefs_consistent, Hlc].
    intros x y Hxy. simpl in Hxy.
    rewrite (compareRefs_shape lc (employeeMap h)); [done|apply Hs]. }
  split; [|done]. split; [done|].
  intros a' Ha'. destruct (decide (a = a')) as [<-|Hne]; [done|].
  apply (sortedArr_shape h); [done| |done].
  by apply readArr_writeArr_ne.
Qed.

Lemma sortedBelow_keeps h h' k :
  keepsSorted lc h h' → sortedBelow lc h k → sortedBelow lc h' k.
Proof.
  intros [Hs Hk] Hb k' Hr. apply Hk, Hb. by eapply reach_shape.
Qed.

Lemma sortedBelow_leaf h k :
  readArr h (ChildrenOf k) = [] → sortedBelow lc h k.
Proof.
  intros Hnil k' Hr. destruct Hr as [|k c k' Hc _].
  - unfold sortedArr. rewrite Hnil. constructor.
  - rewrite Hnil in Hc. by apply elem_of_nil in Hc.
Qed.

Lemma sortedBelow_node h k :
  sortedArr lc h (ChildrenOf k) →
  (∀ c, c ∈ readArr h (ChildrenOf k) → sortedBelow lc h c) →
  sortedBelow lc h k.
Proof.
  intros Hk Hc k' Hr. destruct Hr as [|k c k' Hin Hr]; [done|].
  by eapply Hc.
Qed.

Lemma sortNodes_sorted fuel : ∀ h a h',
  sortNodes lc fuel h a = Some h' →
  keepsSorted lc h h' ∧ sortedArr lc h' a ∧
  ∀ k, k ∈ readArr h' a → sortedBelow lc h' k.
Proof.
  induction fuel as [|fuel IH]; intros h a h' Hrun; [done|].
  simpl in Hrun.
  destruct (sorted_after_sort h a) as [Hk1 Ha1].
  set (h1 := writeArr h a _) in *.
  assert (∀ l s s',
    forEachM
      (λ h0 node,
         if decide (0 < length (readArr h0 (ChildrenOf node)))
         then sortNodes lc fuel h0 (ChildrenOf node) else Some h0)
      l s = Some s' →
    keepsSorted lc s s' ∧ ∀ k, k ∈ l → sortedBelow lc s' k) as Hloop.
  { clear Hrun. induction l as [|x l IHl]; intros s s' Hl; simpl in Hl.
    - simplify_eq. split; [apply keepsSorted_refl|].
      intros k Hk. by apply elem_of_nil in Hk.
    - destruct (decide _) as [Hlen|Hlen].
      + destruct (sortNodes lc fuel s (ChildrenOf x)) as [s1|] eqn:Hx;
          [|done].
        apply IH in Hx as (Hks & Hax & Hcx).
        apply IHl in Hl as [Hkl Hbl].
        split; [by eapply keepsSorted_trans|].
        intros k [->|Hk]%elem_of_cons; [|by apply Hbl].
        apply (sortedBelow_keeps s1); [done|].
        by apply sortedBelow_node.
      + apply IHl in Hl as [Hkl Hbl]. split; [done|].
        intros k [->|Hk]%elem_of_cons; [|by apply Hbl].
        apply (sortedBelow_keeps s); [done|].
        apply sortedBelow_leaf.
        destruct (readArr s (ChildrenOf x)) eqn:Hr; [done|].
        simpl in Hr. rewrite Hr in Hlen. simpl in Hlen. lia. }
  apply Hloop in Hrun as [Hk2 Hb].
  split; [by eapply keepsSorted_trans|].
  split; [by apply Hk2|].
  intros k Hk. apply Hb.
  by rewrite <- (proj2 (proj1 Hk2) a).
Qed.
End SortedPass.

(** ** The lookup table *)

Lemma recordOf_snoc fl e k :
  recordOf (fl ++ [e]) k = if decide (id e = k) then Some e else recordOf fl k.
Proof.
  unfold recordOf. rewrite filter_app, filter_cons, filter_nil.
  case_decide; [by rewrite last_snoc|by rewrite app_nil_r].
Qed.

Lemma recordOf_Some fl k e : recordOf fl k = Some e → e ∈ fl ∧ id e = k.
Proof.
  unfold recordOf. intros H%last_Some_elem_of.
  apply list_elem_of_filter in H. tauto.
Qed.

Lemma recordOf_is_Some fl k : k ∈ id <$> fl → is_Some (recordOf fl k).
Proof.
  induction fl as [|e fl IH] using rev_ind.
  - intros H. by apply elem_of_nil in H.
  - rewrite fmap_app, elem_of_app, recordOf_snoc. simpl.
    case_decide; [eauto|]. intros [?|Hin]; [auto|].
    apply list_elem_of_singleton in Hin. congruence.
Qed.

Lemma recordOf_unique fl e :
  NoDup (id <$> fl) → e ∈ fl → recordOf fl (id e) = Some e.
Proof.
  induction fl as [|e' fl IH] using rev_ind.
  - intros _ H. by apply elem_of_nil in H.
  - rewrite fmap_app, NoDup_app, elem_of_app, recordOf_snoc. simpl.
    intros (Hnd & Hfresh & _) [Hin|Hin].
    + case_decide as Heq; [|auto]. exfalso.
      apply (Hfresh (id e)); [by apply list_elem_of_fmap_2|].
      rewrite <- Heq. left.
    + apply list_elem_of_singleton in Hin. subst. by case_decide.
Qed.

Lemma newEmployeeMap_lookup fl k :
  newEmployeeMap fl !! k = (λ e, mkOrgNode e []) <$> recordOf fl k.
Proof.
  unfold newEmployeeMap. induction fl as [|e fl IH] using rev_ind; [done|].
  rewrite foldl_snoc, recordOf_snoc, lookup_insert.
  repeat case_decide; try done; congruence.
Qed.

Lemma newEmployeeMap_has fl k :
  is_Some (newEmployeeMap fl !! k) ↔ k ∈ id <$> fl.
Proof.
  rewrite newEmployeeMap_lookup, fmap_is_Some. split.
  - intros [e [He <-]%recordOf_Some]. by apply list_elem_of_fmap_2.
  - apply recordOf_is_Some.
Qed.

(** ** The linking pass in closed form *)

Lemma hasId_true fl k : hasId fl k = true ↔ k ∈ id <$> fl.
Proof. unfold hasId. apply bool_decide_eq_true. Qed.

Lemma reportsTo_true fl k e :
  reportsTo fl k e = true ↔ isRootOf fl e = false ∧ managerId e = Some k.
Proof.
  unfold reportsTo. rewrite andb_true_iff, negb_true_iff, bool_decide_eq_true.
  done.
Qed.

Lemma isRootOf_false fl e :
  isRootOf fl e = false →
  ∃ k, managerId e = Some k ∧ k ≠ "" ∧ k ∈ id <$> fl.
Proof.
  unfold isRootOf, truthy. rewrite orb_false_iff, !negb_false_iff.
  destruct (managerId e) as [k|]; [|intros [? _]; done].
  intros [Hk Hh]. exists k. split; [done|]. split.
  - intros ->. done.
  - by apply hasId_true.
Qed.

Lemma linkNodes_prefix fl p :
  (∀ e, e ∈ p → e ∈ fl) →
  let st := foldl linkStep
              {| ls_map := newEmployeeMap fl; ls_rootNodes := [];
                 ls_childNodes := ∅ |} p in
  ls_rootNodes st = id <$> filter (λ e, isRootOf fl e) p ∧
  (∀ k, ls_map st !! k =
        (λ n, setChildren (id <$> filter (λ e, reportsTo fl k e) p) n) <$>
        newEmployeeMap fl !! k) ∧
  ls_childNodes st =
    list_to_set (id <$> filter (λ e, negb (isRootOf fl e)) p).
Proof.
  induction p as [|e p IH] using rev_ind; intros Hsub st.
  - subst st. simpl. split; [done|]. split; [|done].
    intros k. rewrite newEmployeeMap_lookup.
    by destruct (recordOf fl k).
  - destruct IH as (IHr & IHm & IHc).
    { intros e' He'. apply Hsub, elem_of_app. by left. }
    subst st. rewrite foldl_snoc.
    set (st := foldl linkStep _ p) in *.
    assert (e ∈ fl) as He by (apply Hsub, elem_of_app; right; left).
    assert (∀ k, is_Some (ls_map st !! k) ↔ k ∈ id <$> fl) as Hhas.
    { intros k. rewrite IHm, fmap_is_Some. apply newEmployeeMap_has. }
    assert (mapHas (ls_map st) (managerId e) =
            match managerId e with Some k => hasId fl k | None => false end)
      as Hmh.
    { unfold mapHas, hasId. destruct (managerId e) as [k|]; [|done].
      apply bool_decide_ext, Hhas. }
    destruct (proj2 (Hhas (id e))) as [ne Hne];
      [by apply list_elem_of_fmap_2|].
    assert (∀ (P : Employee → bool),
              id <$> filter (λ e, P e) (p ++ [e]) =
              (id <$> filter (λ e, P e) p) ++ if P e then [id e] else [])
      as Hsnoc.
    { intros P. rewrite filter_app, filter_cons, filter_nil, fmap_app.
      by destruct (P e). }
    unfold linkStep. rewrite Hmh, Hne.
    fold (isRootOf fl e). rewrite !Hsnoc.
    destruct (isRootOf fl e) eqn:Hroot.
    + simpl. split; [by rewrite IHr|]. split.
      * intros k. rewrite IHm, Hsnoc.
        assert (reportsTo fl k e = false) as ->
          by (unfold reportsTo; by rewrite Hroot).
        by rewrite app_nil_r.
      * rewrite IHc. by rewrite app_nil_r.
    + destruct (isRootOf_false _ _ Hroot) as (mid & Hmid & _ & Hin).
      rewrite Hmid. simpl.
      destruct (proj2 (Hhas mid) Hin) as [nm Hnm]. rewrite Hnm.
      simpl. split; [by rewrite IHr, app_nil_r|]. split.
      * intros k. rewrite lookup_alter, Hsnoc. case_decide as Hk.
        -- subst k. rewrite IHm.
           assert (reportsTo fl mid e = true) as ->
             by (by apply reportsTo_true).
           by destruct (newEmployeeMap fl !! mid).
        -- rewrite IHm.
           assert (reportsTo fl k e = false) as ->.
           { apply not_true_is_false. rewrite reportsTo_true.
             intros [_ ?]. congruence. }
           by rewrite app_nil_r.
      * rewrite IHc, list_to_set_app_L. simpl. by rewrite union_empty_r_L.
Qed.

Lemma filter_none {A} (P : A → Prop) `{!∀ x, Decision (P x)} (l : list A) :
  (∀ x, x ∈ l → ¬ P x) → filter P l = [].
Proof.
  induction l as [|x l IH]; intros Hl; [done|].
  rewrite filter_cons. case_decide as Hx.
  - exfalso. eapply Hl; [left|done].
  - apply IH. intros y Hy. apply Hl. by right.
Qed.

Lemma linked_roots fl :
  rootNodes (linked fl) = id <$> filter (λ e, isRootOf fl e) fl.
Proof. by destruct (linkNodes_prefix fl fl) as (H & _ & _). Qed.

Lemma linked_emp fl k :
  emp <$> employeeMap (linked fl) !! k = recordOf fl k.
Proof.
  destruct (linkNodes_prefix fl fl) as (_ & H & _); [done|].
  simpl in *. unfold linkNodes. rewrite H, newEmployeeMap_lookup.
  by destruct (recordOf fl k).
Qed.

Lemma linked_children fl k :
  readArr (linked fl) (ChildrenOf k) =
  id <$> filter (λ e, reportsTo fl k e) fl.
Proof.
  destruct (linkNodes_prefix fl fl) as (_ & H & _); [done|].
  simpl in *. unfold linkNodes. rewrite H.
  destruct (newEmployeeMap fl !! k) as [n|] eqn:Hk; [done|]. simpl.
  rewrite filter_none; [done|].
  intros e _ Hrep. apply Is_true_true, reportsTo_true in Hrep as [Hr Hm].
  apply isRootOf_false in Hr as (k' & Hk' & _ & Hin).
  apply newEmployeeMap_has in Hin as [n Hn]. congruence.
Qed.

Lemma linked_childNodes fl :
  ls_childNodes (linkNodes fl) =
  list_to_set (id <$> filter (λ e, negb (isRootOf fl e)) fl).
Proof. by destruct (linkNodes_prefix fl fl) as (_ & _ & H). Qed.

(** ** Levels of a parent function *)

Lemma chainUp_add parent n m x :
  chainUp parent (n + m) x = chainUp parent m x ≫= chainUp parent n.
Proof.
  induction n as [|n IH]; simpl.
  - by destruct (chainUp parent m x).
  - rewrite IH. by destruct (chainUp parent m x).
Qed.

Lemma chainUp_S parent d x :
  chainUp parent (S d) x = parent x ≫= chainUp parent d.
Proof. replace (S d) with (d + 1) by lia. by rewrite chainUp_add. Qed.

Lemma chainUp_top parent d x r :
  chainUp parent d x = Some r → parent r = None →
  ∀ e, chainUp parent (S e + d) x = None.
Proof.
  intros Hd Hr e. rewrite chainUp_add, Hd. simpl option_bind.
  change (chainUp parent (S e) r = None). by rewrite chainUp_S, Hr.
Qed.

Section Levels.
Context (ids : list string) (parent : string → option string).
Hypothesis parent_dom : ∀ x k, parent x = Some k → x ∈ ids.

Lemma level_unique d d' x :
  level ids parent d x → level ids parent d' x → d = d'.
Proof.
  intros (r & Hr & _ & Hp) (r' & Hr' & _ & Hp').
  destruct (lt_eq_lt_dec d d') as [[Hlt| ->]|Hlt]; [|done|].
  - pose proof (chainUp_top parent d x r Hr Hp (d' - d - 1)) as Hn.
    replace (S (d' - d - 1) + d) with d' in Hn by lia. congruence.
  - pose proof (chainUp_top parent d' x r' Hr' Hp' (d - d' - 1)) as Hn.
    replace (S (d - d' - 1) + d') with d in Hn by lia. congruence.
Qed.

Lemma level_child d x k :
  parent x = Some k → level ids parent d k → level ids parent (S d) x.
Proof.
  intros Hx (r & Hr & Hin & Hp). exists r.
  by rewrite chainUp_S, Hx.
Qed.

Lemma level_parent d x :
  level ids parent (S d) x →
  ∃ k, parent x = Some k ∧ level ids parent d k.
Proof.
  intros (r & Hr & Hin & Hp). rewrite chainUp_S in Hr.
  destruct (parent x) as [k|] eqn:Hk; [|done].
  exists k. split; [done|]. by exists r.
Qed.

Lemma level_above d j x c :
  chainUp parent j x = Some c → level ids parent d c →
  level ids parent (d + j) x.
Proof.
  intros Hj (r & Hr & Hin & Hp). exists r.
  by rewrite chainUp_add, Hj.
Qed.

Lemma level_in_ids d x : level ids parent d x → x ∈ ids.
Proof.
  destruct d as [|d].
  - intros (r & Hr & Hin & _). simpl in Hr. by simplify_eq.
  - intros (k & Hk & _)%level_parent. by eapply parent_dom.
Qed.

(** The nodes on the way to the top are pairwise different. *)
Lemma level_chain d : ∀ x,
  level ids parent d x →
  ∃ l, length l = S d ∧ NoDup l ∧
       ∀ y, y ∈ l → ∃ i, i ≤ d ∧ level ids parent i y.
Proof.
  induction d as [|d IH]; intros x Hx.
  - exists [x]. split; [done|]. split; [apply NoDup_singleton|].
    intros y ->%list_elem_of_singleton. eauto.
  - destruct (level_parent d x Hx) as (k & Hk & Hlk).
    destruct (IH k Hlk) as (l & Hlen & Hnd & Hl).
    exists (x :: l). split; [simpl; lia|]. split.
    + constructor; [|done]. intros (i & Hi & Hli)%Hl.
      pose proof (level_unique _ _ _ Hx Hli). lia.
    + intros y [->|Hy]%elem_of_cons; [eauto|].
      destruct (Hl y Hy) as (i & ? & ?). exists i. split; [lia|done].
Qed.

Lemma level_bound d x : level ids parent d x → d < length ids.
Proof.
  intros (l & Hlen & Hnd & Hl)%level_chain.
  assert (length l ≤ length ids); [|lia].
  apply submseteq_length, NoDup_submseteq; [done|].
  intros y (i & _ & Hy)%Hl. by eapply level_in_ids.
Qed.
End Levels.

(** ** Walking a forest whose arrays follow a parent function *)

Lemma mapM_disjoint {A B} (f : A → option (list B)) (P : A → B → Prop) ks :
  NoDup ks →
  (∀ c, c ∈ ks → ∃ l, f c = Some l ∧ NoDup l ∧ ∀ x, x ∈ l ↔ P c x) →
  (∀ c1 c2 x, c1 ∈ ks → c2 ∈ ks → P c1 x → P c2 x → c1 = c2) →
  ∃ ls, mapM f ks = Some ls ∧ NoDup (concat ls) ∧
        ∀ x, x ∈ concat ls ↔ ∃ c, c ∈ ks ∧ P c x.
Proof.
  induction ks as [|c ks IH]; intros Hnd Hf Hdis.
  - exists []. split; [done|]. split; [constructor|].
    intros x. split; [by intros ?%elem_of_nil|].
    by intros (? & ?%elem_of_nil & _).
  - apply NoDup_cons in Hnd as [Hc Hnd].
    destruct (Hf c) as (l & Hl & Hlnd & Hlx); [left|].
    destruct IH as (ls & Hls & Hlsnd & Hlsx); [done| | |].
    { intros c' Hc'. apply Hf. by right. }
    { intros c1 c2 x H1 H2. apply Hdis; by right. }
    exists (l :: ls). split; [simpl; by rewrite Hl, Hls|].
    split.
    + simpl. apply NoDup_app. split; [done|]. split; [|done].
      intros x Hx%Hlx (c' & Hc' & Hx')%Hlsx.
      assert (c = c') as -> by (eapply Hdis; [left|by right|done..]).
      done.
    + intros x. simpl. rewrite elem_of_app, Hlx, Hlsx. split.
      * intros [?|(c' & ? & ?)]; [exists c; split; [left|done]|].
        exists c'. split; [by right|done].
      * intros (c' & [->|?]%elem_of_cons & ?); [by left|right; eauto].
Qed.

Lemma walk_S m h k :
  walk (S m) h k =
  rest ← mapM (walk m h) (readArr h (ChildrenOf k)); Some (k :: concat rest).
Proof. done. Qed.

Section Shape.
Context (ids : list string) (parent : string → option string) (h : Forest).
Hypothesis parent_dom : ∀ x k, parent x = Some k → x ∈ ids.
Hypothesis roots_spec : ∀ x, x ∈ rootNodes h ↔ x ∈ ids ∧ parent x = None.
Hypothesis kids_spec :
  ∀ k x, x ∈ readArr h (ChildrenOf k) ↔ parent x = Some k.
Hypothesis roots_nodup : NoDup (rootNodes h).
Hypothesis kids_nodup : ∀ k, NoDup (readArr h (ChildrenOf k)).

Local Abbreviation lvl := (level ids parent).

Lemma root_level r : r ∈ rootNodes h → lvl 0 r.
Proof. intros [? ?]%roots_spec. by exists r. Qed.

Lemma Bounded_level m : ∀ d k,
  lvl d k → length ids ≤ m + d → Bounded h m (ChildrenOf k).
Proof.
  induction m as [|m IH]; intros d k Hk Hle.
  - apply (level_bound ids parent parent_dom) in Hk. simpl in Hle. lia.
  - intros c Hc%kids_spec _. apply (IH (S d)); [|lia].
    by eapply level_child.
Qed.

Lemma Bounded_roots : Bounded h (S (length ids)) RootNodes.
Proof.
  intros r Hr%root_level _. apply (Bounded_level _ 0); [done|lia].
Qed.

(** The nodes at or below [k]: those whose chain passes through [k]. *)
Lemma walk_level m : ∀ d k,
  lvl d k → length ids ≤ m + d →
  ∃ l, walk m h k = Some l ∧ NoDup l ∧
       ∀ x, x ∈ l ↔ ∃ j, chainUp parent j x = Some k.
Proof.
  induction m as [|m IH]; intros d k Hk Hle.
  - apply (level_bound ids parent parent_dom) in Hk. simpl in Hle. lia.
  - destruct (mapM_disjoint (walk m h)
                (λ c x, ∃ j, chainUp parent j x = Some c)
                (readArr h (ChildrenOf k)))
      as (ls & Hls & Hnd & Hin).
    + apply kids_nodup.
    + intros c Hc%kids_spec. apply (IH (S d)); [|lia].
      by eapply level_child.
    + intros c1 c2 x H1%kids_spec H2%kids_spec [j1 Hj1] [j2 Hj2].
      assert (lvl (S d) c1) as L1 by by eapply level_child.
      assert (lvl (S d) c2) as L2 by by eapply level_child.
      pose proof (level_above ids parent _ _ _ _ Hj1 L1) as X1.
      pose proof (level_above ids parent _ _ _ _ Hj2 L2) as X2.
      pose proof (level_unique ids parent _ _ _ X1 X2).
      assert (j1 = j2) as -> by lia. congruence.
    + exists (k :: concat ls). split; [by rewrite walk_S, Hls|]. split.
      * constructor; [|done].
        intros (c & Hc%kids_spec & j & Hj)%Hin.
        assert (lvl (S d) c) as L by by eapply level_child.
        pose proof (level_above ids parent _ _ _ _ Hj L) as X.
        pose proof (level_unique ids parent _ _ _ Hk X). lia.
      * intros x. rewrite elem_of_cons, Hin. split.
        -- intros [->|(c & Hc%kids_spec & j & Hj)]; [by exists 0|].
           exists (S j). simpl. by rewrite Hj.
        -- intros [[|j] Hj]; simpl in Hj; [left; congruence|].
           destruct (chainUp parent j x) as [c|] eqn:Hc; [|done].
           right. exists c. split; [by apply kids_spec|eauto].
Qed.

(** Every node of the forest is met once, and the nodes met are those
    whose chain ends at the top. *)
Lemma forestIds_level fuel :
  length ids ≤ fuel →
  ∃ l, forestIds fuel h = Some l ∧ NoDup l ∧
       ∀ x, x ∈ l ↔ ∃ d, lvl d x.
Proof.
  intros Hle.
  destruct (mapM_disjoint (walk fuel h)
              (λ c x, ∃ j, chainUp parent j x = Some c)
              (rootNodes h))
    as (ls & Hls & Hnd & Hin).
  - done.
  - intros r Hr%root_level. apply (walk_level _ 0); [done|lia].
  - intros r1 r2 x H1%root_level H2%root_level [j1 Hj1] [j2 Hj2].
    pose proof (level_above ids parent _ _ _ _ Hj1 H1) as X1.
    pose proof (level_above ids parent _ _ _ _ Hj2 H2) as X2.
    pose proof (level_unique ids parent _ _ _ X1 X2).
    assert (j1 = j2) as -> by lia. congruence.
  - exists (concat ls). split; [unfold forestIds; by rewrite Hls|].
    split; [done|]. intros x. rewrite Hin. split.
    + intros (r & [? ?]%roots_spec & j & Hj). exists j, r. eauto.
    + intros (d & r & Hr & ? & ?). exists r.
      split; [by apply roots_spec|eauto].
Qed.

(** A descent from a node never meets a node twice. *)
Lemma descent_level k p :
  descent h k p → ∀ d, lvl d k →
  NoDup p ∧ ∀ y, y ∈ p → ∃ i, d ≤ i ∧ lvl i y.
Proof.
  induction 1 as [k|k c p Hc%kids_spec _ IH]; intros d Hk.
  - split; [apply NoDup_singleton|].
    intros y ->%list_elem_of_singleton. eauto.
  - destruct (IH (S d)) as [Hnd Hp]; [by eapply level_child|].
    split.
    + constructor; [|done]. intros (i & Hi & Hli)%Hp.
      pose proof (level_unique ids parent _ _ _ Hk Hli). lia.
    + intros y [->|Hy]%elem_of_cons; [eauto|].
      destruct (Hp y Hy) as (i & ? & ?). exists i. split; [lia|done].
Qed.

Lemma descent_from_root r p :
  r ∈ rootNodes h → descent h r p → NoDup p ∧ length p ≤ length ids.
Proof.
  intros Hr%root_level Hp.
  destruct (descent_level _ _ Hp 0 Hr) as [Hnd Hl]. split; [done|].
  apply submseteq_length, NoDup_submseteq; [done|].
  intros y (i & _ & Hy)%Hl. by eapply level_in_ids.
Qed.
End Shape.

(** ** The linked forest of a list with unique ids *)

Lemma managerOf_dom fl x k : managerOf fl x = Some k → x ∈ id <$> fl.
Proof.
  unfold managerOf. destruct (recordOf fl x) as [e|] eqn:He; [|done].
  intros _. apply recordOf_Some in He as [? <-].
  by apply list_elem_of_fmap_2.
Qed.

Lemma sublist_ids_NoDup fl (P : Employee → Prop) `{!∀ e, Decision (P e)} :
  NoDup (id <$> fl) → NoDup (id <$> filter P fl).
Proof.
  intros Hnd. eapply sublist_NoDup; [exact Hnd|].
  apply fmap_sublist, sublist_filter.
Qed.

Section Unique.
Context (fl : list Employee) (Hnd : NoDup (id <$> fl)).

Lemma linked_kids_spec k x :
  x ∈ readArr (linked fl) (ChildrenOf k) ↔ managerOf fl x = Some k.
Proof.
  rewrite linked_children, list_elem_of_fmap. unfold managerOf. split.
  - intros (e & -> & [Hr He]%list_elem_of_filter).
    rewrite (recordOf_unique fl e Hnd He). simpl.
    apply Is_true_true, reportsTo_true in Hr as [-> ?]. done.
  - destruct (recordOf fl x) as [e|] eqn:He; [|done]. simpl.
    apply recordOf_Some in He as [He <-].
    destruct (isRootOf fl e) eqn:Hr; [done|]. intros Hm.
    exists e. split; [done|]. apply list_elem_of_filter. split; [|done].
    by apply Is_true_true, reportsTo_true.
Qed.

Lemma linked_roots_spec x :
  x ∈ rootNodes (linked fl) ↔ x ∈ id <$> fl ∧ managerOf fl x = None.
Proof.
  rewrite linked_roots, !list_elem_of_fmap. unfold managerOf. split.
  - intros (e & -> & [Hr He]%list_elem_of_filter). split; [eauto|].
    rewrite (recordOf_unique fl e Hnd He). simpl.
    apply Is_true_true in Hr. by rewrite Hr.
  - intros [(e & -> & He) Hm].
    rewrite (recordOf_unique fl e Hnd He) in Hm. simpl in Hm.
    exists e. split; [done|]. apply list_elem_of_filter. split; [|done].
    destruct (isRootOf fl e) eqn:Hr; [done|].
    apply isRootOf_false in Hr as (k & Hk & _). congruence.
Qed.

(** What the sorted forest inherits from the linked one. *)
Context (f : Forest) (Hf : sameShape (linked fl) f).

Lemma built_roots_spec x :
  x ∈ rootNodes f ↔ x ∈ id <$> fl ∧ managerOf fl x = None.
Proof.
  rewrite <- linked_roots_spec.
  change (x ∈ readArr f RootNodes ↔ x ∈ readArr (linked fl) RootNodes).
  by rewrite (proj2 Hf RootNodes).
Qed.

Lemma built_kids_spec k x :
  x ∈ readArr f (ChildrenOf k) ↔ managerOf fl x = Some k.
Proof.
  rewrite <- linked_kids_spec. by rewrite (proj2 Hf (ChildrenOf k)).
Qed.

Lemma built_roots_nodup : NoDup (rootNodes f).
Proof.
  change (NoDup (readArr f RootNodes)). rewrite (proj2 Hf RootNodes).
  change (NoDup (rootNodes (linked fl))).
  rewrite linked_roots. by apply sublist_ids_NoDup.
Qed.

Lemma built_kids_nodup k : NoDup (readArr f (ChildrenOf k)).
Proof.
  rewrite (proj2 Hf (ChildrenOf k)), linked_children.
  by apply sublist_ids_NoDup.
Qed.

Lemma built_emp e : e ∈ fl → emp <$> employeeMap f !! id e = Some e.
Proof.
  intros He. rewrite (proj1 Hf), linked_emp. by apply recordOf_unique.
Qed.
End Unique.

Lemma reachesTop_level fl x :
  reachesTop fl x = true ↔ ∃ d, level (id <$> fl) (managerOf fl) d x.
Proof.
  unfold reachesTop. rewrite existsb_exists. split.
  - intros (d & _ & Hd).
    destruct (chainUp (managerOf fl) d x) as [r|] eqn:Hr; [|done].
    apply andb_true_iff in Hd as [Hh%hasId_true Hm%bool_decide_eq_true].
    exists d, r. eauto.
  - intros [d Hd]. exists d. split.
    + apply in_seq. split; [lia|]. simpl.
      apply level_bound in Hd; [|apply managerOf_dom].
      by rewrite length_fmap in Hd.
    + destruct Hd as (r & -> & Hin & Hm).
      apply andb_true_iff. split; [by apply hasId_true|].
      by apply bool_decide_eq_true.
Qed.

Lemma onCycle_no_level fl x d :
  onCycle fl x → ¬ level (id <$> fl) (managerOf fl) d x.
Proof.
  intros (j & Hj & Hc) Hl.
  pose proof (level_above _ _ _ _ _ _ Hc Hl) as Hl'.
  pose proof (level_unique _ _ _ _ _ Hl Hl'). lia.
Qed.

Lemma occurrences_NoDup x l :
  NoDup l → occurrences x l = if bool_decide (x ∈ l) then 1 else 0.
Proof.
  unfold occurrences. induction 1 as [|y l Hy _ IH]; [done|].
  rewrite filter_cons. destruct (decide (y = x)) as [->|Hxy].
  - simpl. rewrite IH.
    rewrite (bool_decide_eq_false_2 (x ∈ l)) by done.
    by rewrite bool_decide_eq_true_2 by left.
  - rewrite IH. apply (f_equal (λ b : bool, if b then 1 else 0)).
    apply bool_decide_ext. rewrite elem_of_cons. intuition congruence.
Qed.

(** ** The build on a list with unique ids *)

Lemma buildOrgChart_shape lc fuel emps dept f :
  buildOrgChart lc fuel emps dept = Some f →
  sameShape (linked (filterEmployees emps dept)) f.
Proof. apply sortNodes_shape. Qed.

Lemma buildOrgChart_unique lc fuel emps dept :
  let fl := filterEmployees emps dept in
  NoDup (id <$> fl) → S (length fl) ≤ fuel →
  ∃ f, buildOrgChart lc fuel emps dept = Some f ∧ sameShape (linked fl) f.
Proof.
  intros fl Hnd Hfuel.
  destruct (sortNodes_total lc (S (length fl)) fuel (linked fl) RootNodes)
    as [f Hf]; [|done|].
  - rewrite <- (length_fmap id fl).
    apply (Bounded_roots (id <$> fl) (managerOf fl)).
    + apply managerOf_dom.
    + by apply linked_roots_spec.
    + by apply linked_kids_spec.
  - exists f. split; [done|]. by eapply buildOrgChart_shape.
Qed.

Lemma built_forestIds fl f fuel :
  NoDup (id <$> fl) → sameShape (linked fl) f → length fl ≤ fuel →
  ∃ l, forestIds fuel f = Some l ∧ NoDup l ∧
       ∀ x, x ∈ l ↔ reachesTop fl x = true.
Proof.
  intros Hnd Hf Hfuel.
  destruct (forestIds_level (id <$> fl) (managerOf fl) f) with (fuel := fuel)
    as (l & Hl & Hlnd & Hlx).
  - apply managerOf_dom.
  - by apply built_roots_spec.
  - by apply built_kids_spec.
  - by eapply built_roots_nodup.
  - by eapply built_kids_nodup.
  - by rewrite length_fmap.
  - exists l. split; [done|]. split; [done|].
    intros x. by rewrite Hlx, reachesTop_level.
Qed.

(** ** Code-point comparison is a consistent comparator *)

Lemma string_compare_trans a : ∀ b c,
  String.compare a b ≠ Gt → String.compare b c ≠ Gt →
  String.compare a c ≠ Gt.
Proof.
  induction a as [|x a IH]; intros [|y b] [|z c]; simpl; try done.
  unfold Ascii.compare.
  destruct (N.compare_spec (Ascii.N_of_ascii x) (Ascii.N_of_ascii y)),
           (N.compare_spec (Ascii.N_of_ascii y) (Ascii.N_of_ascii z)),
           (N.compare_spec (Ascii.N_of_ascii x) (Ascii.N_of_ascii z));
    try done; try lia.
  apply IH.
Qed.

Lemma codePointCompare_le a b :
  (codePointCompare a b ≤ 0)%Z ↔ String.compare a b ≠ Gt.
Proof. unfold codePointCompare. destruct (String.compare a b); split; done || lia. Qed.

Lemma codePointCompare_consistent : Consistent codePointCompare.
Proof.
  split.
  - intros a b. rewrite !codePointCompare_le, (String.compare_antisym a b).
    destruct (String.compare b a); simpl; auto.
  - intros a b c. rewrite !codePointCompare_le. apply string_compare_trans.
Qed.

(** ** Department filter *)

Lemma sublist_into_filter {A} (P : A → Prop) `{!∀ x, Decision (P x)} l k :
  l `sublist_of` k → (∀ x, x ∈ l → P x) → l `sublist_of` filter P k.
Proof.
  induction 1 as [|x l k _ IH|x l k _ IH]; intros Hl.
  - constructor.
  - rewrite filter_cons, decide_True by (apply Hl; left).
    constructor. apply IH. intros y Hy. apply Hl. by right.
  - rewrite filter_cons. case_decide; [constructor|]; by apply IH.
Qed.

(** C7: with the sentinel "all" the filter returns the snapshot itself;
    with any other selection it returns the subsequence of the records of
    that department, in the order of the snapshot: a subsequence whose
    records all match, and into which every subsequence of matching records
    embeds.  The filter is a function of its two arguments alone. *)
Theorem filterEmployees_spec (employees : list Employee)
    (selectedDepartment : string) :
  (selectedDepartment = "all" →
     filterEmployees employees selectedDepartment = employees) ∧
  (selectedDepartment ≠ "all" →
     filterEmployees employees selectedDepartment `sublist_of` employees ∧
     (∀ e, e ∈ filterEmployees employees selectedDepartment ↔
           e ∈ employees ∧ department e = selectedDepartment) ∧
     (∀ l, l `sublist_of` employees →
           (∀ e, e ∈ l → department e = selectedDepartment) →
           l `sublist_of` filterEmployees employees selectedDepartment)).
Proof.
  unfold filterEmployees. split; intros Hsel.
  - by rewrite decide_False by (by intros ?).
  - rewrite decide_True by done. split; [apply sublist_filter|]. split.
    + intros e. rewrite list_elem_of_filter. tauto.
    + intros l. apply sublist_into_filter.
Qed.

(** ** Expansion set and summary counts *)

Lemma applyChange_expandedNodes c st :
  expandedNodes (applyChange c st) = expandedNodes st.
Proof. by destruct c. Qed.

Lemma rebuild_frame lc fuel st st' :
  rebuild lc fuel st = Some st' →
  employees st' = employees st ∧ departments st' = departments st ∧
  expandedNodes st' = expandedNodes st ∧
  selectedDepartment st' = selectedDepartment st.
Proof.
  unfold rebuild. case_decide; [|by intros [= <-]].
  destruct (buildOrgChart _ _ _ _); simpl; [|done]. by intros [= <-].
Qed.

(** C8: a rebuild of the forest, also one that follows a new snapshot or a
    new department selection, leaves the expansion set as it was: an id is
    reported expanded afterwards exactly when it was before. *)
Theorem rebuild_keeps_expansion lc fuel (c : Change) st st' :
  rebuild lc fuel (applyChange c st) = Some st' →
  expandedNodes st' = expandedNodes st ∧
  ∀ nodeId, isExpanded st' nodeId = isExpanded st nodeId.
Proof.
  intros (_ & _ & He & _)%rebuild_frame.
  assert (expandedNodes st' = expandedNodes st) as Heq.
  { rewrite He. apply applyChange_expandedNodes. }
  split; [done|]. intros nodeId. unfold isExpanded. by rewrite Heq.
Qed.

Lemma uniqueDepts_spec xs : ∀ seen,
  NoDup (uniqueDepts seen xs) ∧
  ∀ x, x ∈ uniqueDepts seen xs ↔ x ∈ xs ∧ x ∉ seen.
Proof.
  induction xs as [|y xs IH]; intros seen; simpl.
  - split; [constructor|]. intros x. rewrite elem_of_nil. tauto.
  - case_decide as Hy.
    + destruct (IH seen) as [Hnd Hx]. split; [done|].
      intros x. rewrite Hx, elem_of_cons. split; [tauto|].
      intros [[->|?] ?]; tauto.
    + destruct (IH (y :: seen)) as [Hnd Hx]. split.
      * constructor; [|done]. rewrite Hx, elem_of_cons. tauto.
      * intros x. rewrite !elem_of_cons, Hx, elem_of_cons.
        destruct (decide (x = y)) as [->|]; tauto.
Qed.

(** C9: the summary counts are taken from the snapshot and the department
    list derived from it; two runs over one snapshot that select different
    departments show the same counts: the size of the snapshot, the number
    of records of each role and the number of distinct departments. *)
Theorem stats_independent_of_filter lc emps st d1 d2 fuel1 fuel2 s1 s2 :
  rebuild lc fuel1 (setSelectedDepartment d1 (fetchEmployees emps st))
    = Some s1 →
  rebuild lc fuel2 (setSelectedDepartment d2 (fetchEmployees emps st))
    = Some s2 →
  stats s1 = stats s2 ∧
  totalEmployees (stats s1) = length emps ∧
  admins (stats s1) = length (filter (λ e, role e = admin) emps) ∧
  managers (stats s1) = length (filter (λ e, role e = manager) emps) ∧
  employeesCount (stats s1) =
    length (filter (λ e, role e = employee) emps) ∧
  ∃ ds, departmentsCount (stats s1) = length ds ∧ NoDup ds ∧
        ∀ x, x ∈ ds ↔ x ∈ department <$> emps.
Proof.
  intros (E1 & D1 & _)%rebuild_frame (E2 & D2 & _)%rebuild_frame.
  simpl in *. unfold stats. rewrite E1, D1, E2, D2.
  split; [done|]. simpl. do 4 (split; [done|]).
  exists (uniqueDepts [] (department <$> emps)).
  destruct (uniqueDepts_spec (department <$> emps) []) as [Hnd Hx].
  split; [done|]. split; [done|].
  intros x. rewrite Hx, elem_of_nil. tauto.
Qed.

(** ** Sibling order *)

Lemma linked_refs fl a k : k ∈ readArr (linked fl) a → k ∈ id <$> fl.
Proof.
  destruct a as [|m].
  - change (k ∈ rootNodes (linked fl) → k ∈ id <$> fl).
    rewrite linked_roots, !list_elem_of_fmap.
    intros (e & -> & [_ ?]%list_elem_of_filter). eauto.
  - rewrite linked_children, !list_elem_of_fmap.
    intros (e & -> & [_ ?]%list_elem_of_filter). eauto.
Qed.

Lemma omap_resolved {A B} (g : A → option B) l :
  (∀ k, k ∈ l → is_Some (g k)) →
  Forall2 (λ k e, g k = Some e) l (omap g l).
Proof.
  induction l as [|k l IH]; intros Hl; [constructor|].
  destruct (Hl k) as [e He]; [left|]. simpl. rewrite He.
  constructor; [done|]. apply IH. intros k' Hk'. apply Hl. by right.
Qed.

Lemma nodesOf_resolved fl f a :
  sameShape (linked fl) f →
  Forall2 (λ k e, emp <$> employeeMap f !! k = Some e)
          (readArr f a) (nodesOf f a).
Proof.
  intros [He Hp]. apply omap_resolved. intros k Hk.
  rewrite (Hp a) in Hk. apply linked_refs in Hk.
  rewrite He, linked_emp. by apply recordOf_is_Some.
Qed.

Lemma sortedArr_nodesOf lc h a :
  sortedArr lc h a → StronglySorted (siblingLe lc) (nodesOf h a).
Proof.
  unfold sortedArr, nodesOf.
  induction 1 as [|x l _ IH Hx]; [constructor|]. simpl.
  destruct (employeeMap h !! x) as [nx|] eqn:Hnx; simpl; [|done].
  constructor; [done|].
  apply Forall_forall. intros e (y & Hy & He)%list_elem_of_omap.
  rewrite Forall_forall in Hx. specialize (Hx y Hy).
  unfold compareRefs in Hx. rewrite Hnx in Hx.
  destruct (employeeMap h !! y) as [ny|]; simpl in He; [|done].
  injection He as <-. by apply compareNodes_le.
Qed.

(** C5: in a forest the build returns, the records of the top-level
    sequence and of the children of every node below it stand in sibling
    order, role priority first (admin 0, manager 1, employee 2) and the
    name comparison among equal roles, whenever the name comparison orders
    consistently.  These sequences are the linked ones reordered: the root
    sequence holds the nodes of the records without a resolvable manager
    and the children of a node hold the nodes of its reports, each as often
    as linking pushed it, every node still carries its record, and every
    reference resolves.  On a list with unique ids the build returns such a
    forest. *)
Theorem siblings_sorted_at_every_depth lc fuel emps dept :
  Consistent lc →
  (∀ f, buildOrgChart lc fuel emps dept = Some f →
     StronglySorted (siblingLe lc) (nodesOf f RootNodes) ∧
     (∀ r k, r ∈ rootNodes f → reach f r k →
             StronglySorted (siblingLe lc) (nodesOf f (ChildrenOf k))) ∧
     (∀ a, Forall2 (λ k e, emp <$> employeeMap f !! k = Some e)
                   (readArr f a) (nodesOf f a)) ∧
     rootNodes f
       ≡ₚ id <$> filter (λ e, isRootOf (filterEmployees emps dept) e)
                        (filterEmployees emps dept) ∧
     (∀ k, readArr f (ChildrenOf k)
           ≡ₚ id <$> filter (λ e, reportsTo (filterEmployees emps dept) k e)
                            (filterEmployees emps dept)) ∧
     (∀ k, emp <$> employeeMap f !! k
           = recordOf (filterEmployees emps dept) k)) ∧
  (NoDup (id <$> filterEmployees emps dept) →
   S (length (filterEmployees emps dept)) ≤ fuel →
   ∃ f, buildOrgChart lc fuel emps dept = Some f).
Proof.
  intros Hlc. split.
  - intros f Hrun.
    pose proof (buildOrgChart_shape _ _ _ _ _ Hrun) as Hshape.
    apply (sortNodes_sorted lc Hlc) in Hrun as (_ & Hroots & Hbelow).
    split; [by apply sortedArr_nodesOf|]. split.
    { intros r k Hr Hk. by apply sortedArr_nodesOf, (Hbelow r). }
    split; [intros a; by eapply nodesOf_resolved|].
    destruct Hshape as [He Hp]. split; [|split].
    + rewrite <- linked_roots. apply (Hp RootNodes).
    + intros k. rewrite <- linked_children. apply (Hp (ChildrenOf k)).
    + intros k. by rewrite He, linked_emp.
  - intros Hnd Hfuel.
    destruct (buildOrgChart_unique lc fuel emps dept Hnd Hfuel) as (f & Hf & _).
    eauto.
Qed.

(** ** The forest of a list with unique ids *)

Lemma isRootOf_true fl e :
  isRootOf fl e = true ↔
  managerUnset e ∨ ∀ r, r ∈ fl → managerId e ≠ Some (id r).
Proof.
  unfold isRootOf, managerUnset, truthy.
  destruct (managerId e) as [k|]; [|by split; [left; left|]].
  rewrite orb_true_iff, !negb_true_iff, negb_false_iff.
  rewrite String.eqb_eq, <- not_true_iff_false, hasId_true.
  rewrite list_elem_of_fmap. split.
  - intros [->|Hk]; [left; by right|]. right.
    intros r Hr [= ->]. apply Hk. eauto.
  - intros [[?|[= ->]]|Hk]; [done|by left|]. right.
    intros (r & -> & Hr). by eapply Hk.
Qed.

Lemma managerOf_unique fl e :
  NoDup (id <$> fl) → e ∈ fl →
  managerOf fl (id e) = if isRootOf fl e then None else managerId e.
Proof.
  intros Hnd He. unfold managerOf. by rewrite (recordOf_unique fl e Hnd He).
Qed.

(** C3: on a list with unique ids the build returns once the recursion may
    go one level deeper than the list is long, also when managers form a
    cycle; the walk over the returned forest ends, and no path that
    descends from a root meets a node twice, so no path is longer than the
    list. *)
Theorem build_terminates_forest_acyclic lc emps dept fuel :
  NoDup (id <$> filterEmployees emps dept) →
  S (length (filterEmployees emps dept)) ≤ fuel →
  ∃ f, buildOrgChart lc fuel emps dept = Some f ∧
       (∃ l, forestIds (length (filterEmployees emps dept)) f = Some l) ∧
       ∀ r p, r ∈ rootNodes f → descent f r p →
              NoDup p ∧ length p ≤ length (filterEmployees emps dept).
Proof.
  intros Hnd Hfuel.
  destruct (buildOrgChart_unique lc fuel emps dept Hnd Hfuel) as (f & Hf & Hs).
  exists f. split; [done|]. split.
  - destruct (built_forestIds _ f (length (filterEmployees emps dept)) Hnd Hs)
      as (l & Hl & _); eauto.
  - intros r p Hr Hp.
    rewrite <- (length_fmap id (filterEmployees emps dept)).
    eapply (descent_from_root _ (managerOf (filterEmployees emps dept)) f);
      eauto using managerOf_dom, built_roots_spec, built_kids_spec.
Qed.

(** C10: on a list with unique ids no id occurs twice in the returned
    forest.  Every record has one node, under its id; that node is held
    either by the root sequence or by the children of one manager, never by
    both and never by two managers, and no sequence holds it twice. *)
Theorem each_id_at_most_once lc emps dept :
  NoDup (id <$> filterEmployees emps dept) →
  ∃ f l,
    buildOrgChart lc (S (length (filterEmployees emps dept))) emps dept
      = Some f ∧
    forestIds (length (filterEmployees emps dept)) f = Some l ∧
    NoDup l ∧
    (∀ x, x ∈ l → x ∈ id <$> filterEmployees emps dept) ∧
    NoDup (rootNodes f) ∧
    (∀ k, NoDup (readArr f (ChildrenOf k))) ∧
    ∀ e, e ∈ filterEmployees emps dept →
      emp <$> employeeMap f !! id e = Some e ∧
      ((id e ∈ rootNodes f ∧ ∀ k, id e ∉ readArr f (ChildrenOf k)) ∨
       ((id e ∉ rootNodes f) ∧
        ∃ m, id e ∈ readArr f (ChildrenOf m) ∧
             ∀ k, id e ∈ readArr f (ChildrenOf k) → k = m)).
Proof.
  intros Hnd. set (fl := filterEmployees emps dept) in *.
  destruct (buildOrgChart_unique lc (S (length fl)) emps dept Hnd)
    as (f & Hf & Hs); [done|].
  destruct (built_forestIds fl f (length fl) Hnd Hs) as (l & Hl & Hlnd & Hlx);
    [done|].
  exists f, l. do 3 (split; [done|]). split.
  { intros x (d & Hd)%Hlx%reachesTop_level.
    eapply level_in_ids; [apply managerOf_dom|done]. }
  split; [by eapply built_roots_nodup|].
  split; [by eapply built_kids_nodup|].
  intros e He. split; [by eapply built_emp|].
  rewrite (built_roots_spec fl Hnd f Hs).
  setoid_rewrite (built_kids_spec fl Hnd f Hs).
  destruct (managerOf fl (id e)) as [m|] eqn:Hm.
  - right. split; [by intros [_ ?]|]. exists m. split; [done|].
    by intros k [= ->].
  - left. split; [|done]. split; [by apply list_elem_of_fmap_2|done].
Qed.

(** C6: on a list with unique ids a record is a root of the returned forest
    exactly when no manager was entered for it or its [managerId] is the id
    of no record of the filtered list; any other record is held by the
    children of the record its [managerId] names.  With a department
    selected, a record whose manager is not in that department is a root. *)
Theorem root_iff_manager_unresolved lc emps dept e :
  NoDup (id <$> filterEmployees emps dept) →
  e ∈ filterEmployees emps dept →
  ∃ f,
    buildOrgChart lc (S (length (filterEmployees emps dept))) emps dept
      = Some f ∧
    (id e ∈ rootNodes f ↔
       managerUnset e ∨
       ∀ r, r ∈ filterEmployees emps dept → managerId e ≠ Some (id r)) ∧
    (id e ∉ rootNodes f →
       ∃ m r, managerId e = Some m ∧ r ∈ filterEmployees emps dept ∧
              id r = m ∧ id e ∈ readArr f (ChildrenOf m)) ∧
    (dept ≠ "all" →
     (∀ r, r ∈ emps → managerId e = Some (id r) → department r ≠ dept) →
     id e ∈ rootNodes f).
Proof.
  intros Hnd He. set (fl := filterEmployees emps dept) in *.
  destruct (buildOrgChart_unique lc (S (length fl)) emps dept Hnd)
    as (f & Hf & Hs); [done|].
  exists f. split; [done|].
  assert (id e ∈ rootNodes f ↔ isRootOf fl e = true) as Hroot.
  { rewrite (built_roots_spec fl Hnd f Hs), (managerOf_unique fl e Hnd He).
    destruct (isRootOf fl e) eqn:Hr.
    - split; [done|]. intros _. split; [by apply list_elem_of_fmap_2|done].
    - apply isRootOf_false in Hr as (k & -> & _). by split; [intros [_ ?]|]. }
  split; [by rewrite Hroot, isRootOf_true|]. split.
  - rewrite Hroot. intros Hr%not_true_is_false.
    pose proof (managerOf_unique fl e Hnd He) as Hm. rewrite Hr in Hm.
    apply isRootOf_false in Hr as (m & Hk & _ & Hin).
    apply list_elem_of_fmap in Hin as (r & -> & Hr).
    exists (id r), r. do 3 (split; [done|]).
    apply (built_kids_spec fl Hnd f Hs). by rewrite Hm.
  - intros Hdept Hother. apply Hroot, isRootOf_true. right.
    intros r Hr Hm. subst fl. unfold filterEmployees in Hr.
    rewrite decide_True in Hr by done.
    apply list_elem_of_filter in Hr as [Hd Hr]. by eapply Hother.
Qed.

(** C1, as the build has it: on a list with unique ids the walk over the
    returned forest meets no id twice; it meets the id of a record once
    when the manager chain of the record ends at a record without a
    manager in the list, and not at all otherwise. *)
Theorem forest_holds_ended_chains_once lc emps dept :
  NoDup (id <$> filterEmployees emps dept) →
  ∃ f l,
    buildOrgChart lc (S (length (filterEmployees emps dept))) emps dept
      = Some f ∧
    forestIds (length (filterEmployees emps dept)) f = Some l ∧
    NoDup l ∧
    ∀ e, e ∈ filterEmployees emps dept →
      occurrences (id e) l =
      if reachesTop (filterEmployees emps dept) (id e) then 1 else 0.
Proof.
  intros Hnd. set (fl := filterEmployees emps dept) in *.
  destruct (buildOrgChart_unique lc (S (length fl)) emps dept Hnd)
    as (f & Hf & Hs); [done|].
  destruct (built_forestIds fl f (length fl) Hnd Hs) as (l & Hl & Hlnd & Hlx);
    [done|].
  exists f, l. do 3 (split; [done|]). intros e _.
  rewrite (occurrences_NoDup _ _ Hlnd).
  destruct (reachesTop fl (id e)) eqn:Hr.
  - by rewrite bool_decide_eq_true_2 by by apply Hlx.
  - rewrite bool_decide_eq_false_2; [done|]. rewrite Hlx. congruence.
Qed.

(** C2, as the build has it: on a list with unique ids a record whose
    manager chain comes back to it keeps its manager edge.  It is no root;
    the children of the record it names hold it (its own children when it
    names itself), and the walk over the returned forest does not meet
    it. *)
Theorem cycle_member_is_nested_not_root lc emps dept e :
  NoDup (id <$> filterEmployees emps dept) →
  e ∈ filterEmployees emps dept →
  onCycle (filterEmployees emps dept) (id e) →
  ∃ f m l,
    buildOrgChart lc (S (length (filterEmployees emps dept))) emps dept
      = Some f ∧
    managerId e = Some m ∧
    id e ∈ readArr f (ChildrenOf m) ∧
    (id e ∉ rootNodes f) ∧
    forestIds (length (filterEmployees emps dept)) f = Some l ∧
    id e ∉ l.
Proof.
  intros Hnd He Hcyc. set (fl := filterEmployees emps dept) in *.
  destruct (buildOrgChart_unique lc (S (length fl)) emps dept Hnd)
    as (f & Hf & Hs); [done|].
  destruct (built_forestIds fl f (length fl) Hnd Hs) as (l & Hl & Hlnd & Hlx);
    [done|].
  assert (∀ d, ¬ level (id <$> fl) (managerOf fl) d (id e)) as Hno
    by (intros d; by apply onCycle_no_level).
  destruct (managerOf fl (id e)) as [m|] eqn:Hm.
  - exists f, m, l. split; [done|]. split.
    { rewrite (managerOf_unique fl e Hnd He) in Hm.
      by destruct (isRootOf fl e). }
    split; [by apply (built_kids_spec fl Hnd f Hs)|]. split.
    { rewrite (built_roots_spec fl Hnd f Hs). intros [_ ?]. congruence. }
    split; [done|]. rewrite Hlx, reachesTop_level. intros [d Hd].
    by eapply Hno.
  - exfalso. apply (Hno 0). exists (id e).
    split; [done|]. split; [by apply list_elem_of_fmap_2|done].
Qed.

(** C4, as the build has it: the build checks nothing and rejects nothing.
    For any list, with or without repeated ids, the lookup keeps under each
    id the last record that has it; every record whose manager does not
    resolve adds the node of its id to the root sequence and every other
    record adds it to the children of its manager, once per record; the
    sort only reorders these sequences. *)
Theorem duplicate_ids_merge_without_error lc fuel emps dept :
  (∀ k, emp <$> employeeMap (linked (filterEmployees emps dept)) !! k =
        last (filter (λ e, id e = k) (filterEmployees emps dept))) ∧
  rootNodes (linked (filterEmployees emps dept)) =
    id <$> filter (λ e, isRootOf (filterEmployees emps dept) e)
                  (filterEmployees emps dept) ∧
  (∀ k, readArr (linked (filterEmployees emps dept)) (ChildrenOf k) =
        id <$> filter (λ e, reportsTo (filterEmployees emps dept) k e)
                      (filterEmployees emps dept)) ∧
  ∀ f, buildOrgChart lc fuel emps dept = Some f →
       sameShape (linked (filterEmployees emps dept)) f.
Proof.
  split; [apply linked_emp|]. split; [apply linked_roots|].
  split; [apply linked_children|]. intros f. apply buildOrgChart_shape.
Qed.

(** ** The properties on the sample snapshots *)

(** The forest of the four-people snapshot: Alice on top, Bob before Dave
    below her (manager before employee), Carol below Bob. *)
Example fourPeople_forest :
  ∃ f, buildOrgChart codePointCompare 5 fourPeople "all" = Some f ∧
       rootNodes f = ["a"] ∧
       readArr f (ChildrenOf "a") = ["b"; "d"] ∧
       readArr f (ChildrenOf "b") = ["c"] ∧
       forestIds 4 f = Some ["a"; "b"; "c"; "d"].
Proof.
  eexists. split; [vm_compute; reflexivity|]. by vm_compute.
Qed.

(** Siblings given in the wrong order come out by role, then by name. *)
Example siblings_reordered :
  ∃ f, buildOrgChart codePointCompare 5
         [ sample "1" "Zoe" "Eng" None employee;
           sample "2" "Yan" "Eng" None employee;
           sample "3" "Max" "Eng" None manager;
           sample "4" "Ada" "Eng" None admin ] "all" = Some f ∧
       rootNodes f = ["4"; "3"; "2"; "1"].
Proof.
  eexists. split; [vm_compute; reflexivity|]. by vm_compute.
Qed.

(** Against C1 as worded (every id exactly once, cycles included): Pat and
    Quinn manage each other, the ids are unique, and the walk over the
    returned forest meets neither of them. *)
Lemma mutual_managers_are_omitted :
  NoDup (id <$> filterEmployees mutualManagers "all") ∧
  ∃ f, buildOrgChart codePointCompare 4 mutualManagers "all" = Some f ∧
       forestIds 3 f = Some ["r"] ∧
       occurrences "p" ["r"] ≠ 1 ∧ occurrences "q" ["r"] ≠ 1.
Proof.
  split; [compute_done|].
  eexists. split; [vm_compute; reflexivity|]. by vm_compute.
Qed.

(** Against C2 as worded (a record naming itself becomes a root): the
    record that names itself is no root and sits in its own children. *)
Lemma self_managed_is_nested_not_root :
  NoDup (id <$> filterEmployees selfManaged "all") ∧
  ∃ f, buildOrgChart codePointCompare 2 selfManaged "all" = Some f ∧
       rootNodes f = [] ∧ readArr f (ChildrenOf "x") = ["x"] ∧
       ("x" ∉ rootNodes f) ∧ "x" ∈ readArr f (ChildrenOf "x").
Proof.
  split; [compute_done|].
  eexists. split; [vm_compute; reflexivity|].
  split; [done|]. split; [done|]. split; [apply not_elem_of_nil|left].
Qed.

(** Against C4 as worded (a repeated id raises an error): two records share
    the id "a"; the build returns a forest in which the node of the second
    record stands twice and the first record is gone. *)
Lemma shared_id_is_merged_silently :
  ¬ NoDup (id <$> filterEmployees sharedId "all") ∧
  ∃ f, buildOrgChart codePointCompare 1 sharedId "all" = Some f ∧
       rootNodes f = ["a"; "a"] ∧
       emp <$> employeeMap f !! "a" =
         Some (sample "a" "Anna" "Ops" None employee).
Proof.
  split; [compute_done|].
  eexists. split; [vm_compute; reflexivity|]. by vm_compute.
Qed.

Lemma forest_holds_ended_chains_once_witness :
  NoDup (id <$> filterEmployees mutualManagers "all") ∧
  ∃ f l,
    buildOrgChart codePointCompare 4 mutualManagers "all" = Some f ∧
    forestIds 3 f = Some l ∧ NoDup l ∧
    ∀ e, e ∈ filterEmployees mutualManagers "all" →
      occurrences (id e) l =
      if reachesTop (filterEmployees mutualManagers "all") (id e)
      then 1 else 0.
Proof.
  split; [compute_done|].
  apply (forest_holds_ended_chains_once codePointCompare mutualManagers "all").
  compute_done.
Defined.

Lemma cycle_member_is_nested_not_root_witness :
  NoDup (id <$> filterEmployees selfManaged "all") ∧
  sample "x" "Xavier" "Eng" (Some "x") employee
    ∈ filterEmployees selfManaged "all" ∧
  onCycle (filterEmployees selfManaged "all") "x" ∧
  ∃ f m l,
    buildOrgChart codePointCompare 2 selfManaged "all" = Some f ∧
    Some "x" = Some m ∧
    "x" ∈ readArr f (ChildrenOf m) ∧
    ("x" ∉ rootNodes f) ∧
    forestIds 1 f = Some l ∧ "x" ∉ l.
Proof.
  split; [compute_done|]. split; [left|].
  split; [exists 1; split; [lia|by vm_compute]|].
  apply (cycle_member_is_nested_not_root codePointCompare selfManaged "all"
           (sample "x" "Xavier" "Eng" (Some "x") employee)).
  - compute_done.
  - left.
  - exists 1. split; [lia|by vm_compute].
Defined.

Lemma build_terminates_forest_acyclic_witness :
  NoDup (id <$> filterEmployees mutualManagers "all") ∧
  S (length (filterEmployees mutualManagers "all")) ≤ 4 ∧
  ∃ f, buildOrgChart codePointCompare 4 mutualManagers "all" = Some f ∧
       (∃ l, forestIds 3 f = Some l) ∧
       ∀ r p, r ∈ rootNodes f → descent f r p → NoDup p ∧ length p ≤ 3.
Proof.
  split; [compute_done|]. split; [simpl; lia|].
  apply (build_terminates_forest_acyclic codePointCompare mutualManagers
           "all" 4).
  - compute_done.
  - simpl. lia.
Defined.

Lemma siblings_sorted_at_every_depth_witness :
  Consistent codePointCompare ∧
  ∃ f, buildOrgChart codePointCompare 8 unorderedTeam "all" = Some f ∧
       rootNodes (linked (filterEmployees unorderedTeam "all")) = ["0"; "1"] ∧
       rootNodes f = ["1"; "0"] ∧
       readArr (linked (filterEmployees unorderedTeam "all")) (ChildrenOf "1")
         = ["2"; "3"; "4"] ∧
       readArr f (ChildrenOf "1") = ["4"; "3"; "2"] ∧
       readArr (linked (filterEmployees unorderedTeam "all")) (ChildrenOf "4")
         = ["5"; "6"] ∧
       readArr f (ChildrenOf "4") = ["6"; "5"] ∧
       StronglySorted (siblingLe codePointCompare) (nodesOf f RootNodes) ∧
       (∀ r k, r ∈ rootNodes f → reach f r k →
          StronglySorted (siblingLe codePointCompare)
                         (nodesOf f (ChildrenOf k))) ∧
       rootNodes f
         ≡ₚ id <$> filter (λ e, isRootOf (filterEmployees unorderedTeam "all") e)
                          (filterEmployees unorderedTeam "all").
Proof.
  split; [apply codePointCompare_consistent|].
  destruct (siblings_sorted_at_every_depth codePointCompare 8 unorderedTeam
              "all" codePointCompare_consistent) as [Hsorted Hreturns].
  destruct Hreturns as [f Hf]; [compute_done|simpl; lia|].
  destruct (Hsorted f Hf) as (Hroots & Hbelow & _ & Hperm & _).
  exists f. split; [done|].
  assert (Some f = buildOrgChart codePointCompare 8 unorderedTeam "all")
    as Hf' by done.
  vm_compute in Hf'. injection Hf' as Hf'.
  do 6 (split; [rewrite ?Hf'; by vm_compute|]).
  by repeat split.
Defined.

Lemma root_iff_manager_unresolved_witness :
  NoDup (id <$> filterEmployees salesUnderEng "Sales") ∧
  sample "s" "Sam" "Sales" (Some "m") employee
    ∈ filterEmployees salesUnderEng "Sales" ∧
  ∃ f,
    buildOrgChart codePointCompare 3 salesUnderEng "Sales" = Some f ∧
    ("s" ∈ rootNodes f ↔
       managerUnset (sample "s" "Sam" "Sales" (Some "m") employee) ∨
       ∀ r, r ∈ filterEmployees salesUnderEng "Sales" →
            Some "m" ≠ Some (id r)) ∧
    ("s" ∉ rootNodes f →
       ∃ m r, Some "m" = Some m ∧ r ∈ filterEmployees salesUnderEng "Sales" ∧
              id r = m ∧ "s" ∈ readArr f (ChildrenOf m)) ∧
    ("Sales" ≠ "all" →
     (∀ r, r ∈ salesUnderEng → Some "m" = Some (id r) →
           department r ≠ "Sales") →
     "s" ∈ rootNodes f).
Proof.
  split; [compute_done|]. split; [left|].
  apply (root_iff_manager_unresolved codePointCompare salesUnderEng "Sales"
           (sample "s" "Sam" "Sales" (Some "m") employee)).
  - compute_done.
  - left.
Defined.

Lemma rebuild_keeps_expansion_witness :
  ∃ st',
    rebuild codePointCompare 5
      (applyChange (NewSnapshot fourPeople)
         (toggleNode "b" (fetchEmployees selfManaged initialState)))
      = Some st' ∧
    expandedNodes st' =
      expandedNodes (toggleNode "b" (fetchEmployees selfManaged initialState))
    ∧ ∀ nodeId,
        isExpanded st' nodeId =
        isExpanded (toggleNode "b" (fetchEmployees selfManaged initialState))
                   nodeId.
Proof.
  eexists. split; [vm_compute; reflexivity|].
  apply (rebuild_keeps_expansion codePointCompare 5 (NewSnapshot fourPeople)).
  vm_compute. reflexivity.
Defined.

Lemma stats_independent_of_filter_witness :
  ∃ s1 s2,
    rebuild codePointCompare 4
      (setSelectedDepartment "Sales" (fetchEmployees salesUnderEng initialState))
      = Some s1 ∧
    rebuild codePointCompare 4
      (setSelectedDepartment "all" (fetchEmployees salesUnderEng initialState))
      = Some s2 ∧
    stats s1 = stats s2 ∧
    totalEmployees (stats s1) = 3 ∧ departmentsCount (stats s1) = 2.
Proof.
  eexists _, _. split; [vm_compute; reflexivity|].
  split; [vm_compute; reflexivity|].
  destruct (stats_independent_of_filter codePointCompare salesUnderEng
              initialState "Sales" "all" 4 4 _ _
              ltac:(vm_compute; reflexivity) ltac:(vm_compute; reflexivity))
    as (Heq & Htot & _).
  split; [exact Heq|]. split; [exact Htot|]. by vm_compute.
Defined.

Lemma each_id_at_most_once_witness :
  NoDup (id <$> filterEmployees fourPeople "all") ∧
  ∃ f l,
    buildOrgChart codePointCompare 5 fourPeople "all" = Some f ∧
    forestIds 4 f = Some l ∧ NoDup l.
Proof.
  split; [compute_done|].
  destruct (each_id_at_most_once codePointCompare fourPeople "all")
    as (f & l & Hf & Hl & Hnd & _); [compute_done|].
  exists f, l. by repeat split.
Defined.

Lemma duplicate_ids_merge_without_error_witness :
  rootNodes (linked (filterEmployees sharedId "all")) = ["a"; "a"] ∧
  ∃ f, buildOrgChart codePointCompare 1 sharedId "all" = Some f ∧
       sameShape (linked (filterEmployees sharedId "all")) f.
Proof.
  destruct (duplicate_ids_merge_without_error codePointCompare 1 sharedId
              "all") as (_ & Hroots & _ & Hshape).
  split; [rewrite Hroots; by vm_compute|].
  eexists. split; [vm_compute; reflexivity|].
  apply Hshape. vm_compute. reflexivity.
Defined.

Lemma filterEmployees_spec_witness :
  filterEmployees salesUnderEng "all" = salesUnderEng ∧
  filterEmployees salesUnderEng "Sales" `sublist_of` salesUnderEng.
Proof.
  destruct (filterEmployees_spec salesUnderEng "all") as [Hall _].
  destruct (filterEmployees_spec salesUnderEng "Sales") as [_ Hsel].
  split; [by apply Hall|]. by apply Hsel.
Defined.

(** * Further properties of the page and of the code around it *)

(** ** Expansion set *)

(** [toggleNode] flips the id it is given and no other: the id is expanded
    afterwards exactly when it was not before, and the answer for every
    other id stays. *)
Theorem toggleNode_flips_one nodeId st :
  isExpanded (toggleNode nodeId st) nodeId = negb (isExpanded st nodeId) ∧
  ∀ other, other ≠ nodeId →
    isExpanded (toggleNode nodeId st) other = isExpanded st other.
Proof.
  unfold isExpanded, toggleNode. simpl. split.
  - case_decide as Hin.
    + rewrite (bool_decide_eq_true_2 _ Hin). simpl.
      apply bool_decide_eq_false_2.
      rewrite elem_of_difference, elem_of_singleton. tauto.
    + rewrite (bool_decide_eq_false_2 _ Hin). simpl.
      apply bool_decide_eq_true_2.
      rewrite elem_of_union, elem_of_singleton. tauto.
  - intros other Hne. apply bool_decide_ext. case_decide.
    + rewrite elem_of_difference, elem_of_singleton. tauto.
    + rewrite elem_of_union, elem_of_singleton. tauto.
Qed.

(** Two clicks on the same chevron bring the page back to the state it was
    in. *)
Theorem toggleNode_twice nodeId st :
  toggleNode nodeId (toggleNode nodeId st) = st.
Proof.
  destruct st as [es oc ex sd ds]. unfold toggleNode. simpl. f_equal.
  destruct (decide (nodeId ∈ ex)) as [Hin|Hin].
  - rewrite decide_False
      by (rewrite elem_of_difference, elem_of_singleton; tauto).
    apply set_eq. intros x. rewrite elem_of_union, elem_of_difference,
      elem_of_singleton.
    destruct (decide (x = nodeId)) as [->|]; tauto.
  - rewrite decide_True
      by (rewrite elem_of_union, elem_of_singleton; tauto).
    apply set_eq. intros x. rewrite elem_of_difference, elem_of_union,
      elem_of_singleton.
    destruct (decide (x = nodeId)) as [->|]; tauto.
Qed.

(** ** Summary counts and department options *)

(** The three role counts of [stats] add up to the total: every employee is
    counted under exactly one role. *)
Theorem stats_roles_partition st :
  admins (stats st) + managers (stats st) + employeesCount (stats st)
  = totalEmployees (stats st).
Proof.
  unfold stats. simpl. induction (employees st) as [|e l IH]; [done|].
  rewrite !filter_cons. simpl.
  destruct (role e); simpl;
    repeat (case_decide; try done); simpl; lia.
Qed.

Lemma uniqueDepts_length xs : ∀ seen,
  length (uniqueDepts seen xs) ≤ length xs.
Proof.
  induction xs as [|x xs IH]; intros seen; simpl; [done|].
  case_decide; simpl.
  - specialize (IH seen). lia.
  - specialize (IH (x :: seen)). lia.
Qed.

(** After a fetch every department option of the select, chosen as filter,
    leaves at least one employee of that department, every employee is
    found under the option of the own department, and there are at most as
    many department options as employees. *)
Theorem department_options_cover_snapshot emps st :
  (∀ d, d ∈ departments (fetchEmployees emps st) →
        ∃ e, e ∈ filterEmployees emps d ∧ department e = d) ∧
  (∀ e, e ∈ emps →
        department e ∈ departments (fetchEmployees emps st) ∧
        e ∈ filterEmployees emps (department e)) ∧
  departmentsCount (stats (fetchEmployees emps st))
    ≤ totalEmployees (stats (fetchEmployees emps st)).
Proof.
  destruct (uniqueDepts_spec (department <$> emps) []) as [_ Hx].
  assert (∀ e, e ∈ emps → e ∈ filterEmployees emps (department e)) as Hfl.
  { intros e He. unfold filterEmployees. case_decide; [|done].
    by apply list_elem_of_filter. }
  simpl. split; [|split].
  - intros d [(e & -> & He)%list_elem_of_fmap _]%Hx. eauto.
  - intros e He. split; [|by apply Hfl].
    apply Hx. split; [by apply list_elem_of_fmap_2|apply not_elem_of_nil].
  - etrans; [apply uniqueDepts_length|]. by rewrite length_fmap.
Qed.

(** ** Reports *)

Lemma countTask_fold l : ∀ s,
  taskTotal (foldl countTask s l) = taskTotal s + length l ∧
  taskCompleted (foldl countTask s l) =
    taskCompleted s + length (filter (λ t, taskStatus t = "completed") l) ∧
  taskInProgress (foldl countTask s l) =
    taskInProgress s +
    length (filter (λ t, taskStatus t = "in-progress") l) ∧
  taskPending (foldl countTask s l) =
    taskPending s +
    length (filter (λ t, taskStatus t ≠ "completed" ∧
                         taskStatus t ≠ "in-progress") l).
Proof.
  induction l as [|t l IH]; intros s; simpl; [repeat split; lia|].
  destruct (IH (countTask s t)) as (-> & -> & -> & ->).
  rewrite !filter_cons. unfold countTask.
  repeat case_decide; simpl; try (repeat split; lia);
    exfalso; destruct_and?; first [congruence | tauto].
Qed.

Lemma countLeave_fold l : ∀ s,
  leaveTotal (foldl countLeave s l) = leaveTotal s + length l ∧
  leaveApproved (foldl countLeave s l) =
    leaveApproved s + length (filter (λ t, leaveStatus t = "approved") l) ∧
  leaveRejected (foldl countLeave s l) =
    leaveRejected s + length (filter (λ t, leaveStatus t = "rejected") l) ∧
  leavePending (foldl countLeave s l) =
    leavePending s +
    length (filter (λ t, leaveStatus t ≠ "approved" ∧
                         leaveStatus t ≠ "rejected") l).
Proof.
  induction l as [|t l IH]; intros s; simpl; [repeat split; lia|].
  destruct (IH (countLeave s t)) as (-> & -> & -> & ->).
  rewrite !filter_cons. unfold countLeave.
  repeat case_decide; simpl; try (repeat split; lia);
    exfalso; destruct_and?; first [congruence | tauto].
Qed.

(** The task summary and the leave summary split their total without rest:
    the total is the number of documents read, and a document whose status
    is none of the two named ones is counted as pending, whatever the
    status says. *)
Theorem report_summaries_partition r uid tasks leaves :
  (taskTotal (summarizeTasks r uid tasks)
     = length (reportQuery assignedTo r uid tasks) ∧
   taskCompleted (summarizeTasks r uid tasks)
   + taskInProgress (summarizeTasks r uid tasks)
   + taskPending (summarizeTasks r uid tasks)
     = taskTotal (summarizeTasks r uid tasks) ∧
   taskPending (summarizeTasks r uid tasks)
     = length (filter (λ t, taskStatus t ≠ "completed" ∧
                            taskStatus t ≠ "in-progress")
                      (reportQuery assignedTo r uid tasks))) ∧
  (leaveTotal (summarizeLeave r uid leaves)
     = length (reportQuery leaveEmployeeId r uid leaves) ∧
   leaveApproved (summarizeLeave r uid leaves)
   + leaveRejected (summarizeLeave r uid leaves)
   + leavePending (summarizeLeave r uid leaves)
     = leaveTotal (summarizeLeave r uid leaves) ∧
   leavePending (summarizeLeave r uid leaves)
     = length (filter (λ t, leaveStatus t ≠ "approved" ∧
                            leaveStatus t ≠ "rejected")
                      (reportQuery leaveEmployeeId r uid leaves))).
Proof.
  unfold summarizeTasks, summarizeLeave.
  set (q := reportQuery assignedTo r uid tasks).
  set (q' := reportQuery leaveEmployeeId r uid leaves).
  destruct (countTask_fold q (mkTaskSummary 0 0 0 0)) as (T & C & I & P).
  destruct (countLeave_fold q' (mkLeaveSummary 0 0 0 0)) as (T' & C' & I' & P').
  simpl in *. rewrite T, C, I, P, T', C', I', P'.
  assert (∀ {A} (P1 P2 : A → Prop) `{!∀ x, Decision (P1 x)}
            `{!∀ x, Decision (P2 x)} (l : list A),
            (∀ x, P1 x → P2 x → False) →
            length (filter P1 l) + length (filter P2 l)
            + length (filter (λ x, ¬ P1 x ∧ ¬ P2 x) l) = length l) as Hsplit.
  { intros A P1 P2 ?? l Hdis. induction l as [|x l IH]; [done|].
    rewrite !filter_cons.
    destruct (decide (P1 x)), (decide (P2 x));
      [by destruct (Hdis x)|..];
      [rewrite decide_False by tauto|rewrite decide_False by tauto
      |rewrite decide_True by tauto]; simpl; lia. }
  repeat split.
  - apply Hsplit. intros t ->. done.
  - apply Hsplit. intros t ->. done.
Qed.

Lemma countAttendance_fold l : ∀ s,
  attPresent (foldl countAttendance s l) + attAbsent (foldl countAttendance s l)
  + attLate (foldl countAttendance s l) + attHalfDay (foldl countAttendance s l)
  = attPresent s + attAbsent s + attLate s + attHalfDay s
    + length (filter (λ a, attendanceStatus a ∈
                             ["present"; "absent"; "late"; "half-day"]) l).
Proof.
  induction l as [|a l IH]; intros s; simpl; [lia|].
  rewrite IH, filter_cons. unfold countAttendance.
  destruct (decide (attendanceStatus a ∈ _)) as [Hin|Hin].
  - rewrite !elem_of_cons, elem_of_nil in Hin.
    repeat case_decide; simpl; try lia. exfalso. tauto.
  - repeat case_decide; simpl; try lia;
      exfalso; apply Hin; rewrite !elem_of_cons; tauto.
Qed.

(** The attendance summary counts the records whose status is one of
    present, absent, late and half-day; a record with any other status is
    counted nowhere, so the four numbers add up to at most the number of
    records read, and to exactly that number when every status is one of
    the four. *)
Theorem attendance_summary_counts_known r uid records :
  attPresent (summarizeAttendance r uid records)
  + attAbsent (summarizeAttendance r uid records)
  + attLate (summarizeAttendance r uid records)
  + attHalfDay (summarizeAttendance r uid records)
  = length (filter (λ a, attendanceStatus a ∈
                           ["present"; "absent"; "late"; "half-day"])
                   (reportQuery attendanceEmployeeId r uid records)) ∧
  attPresent (summarizeAttendance r uid records)
  + attAbsent (summarizeAttendance r uid records)
  + attLate (summarizeAttendance r uid records)
  + attHalfDay (summarizeAttendance r uid records)
  ≤ length (reportQuery attendanceEmployeeId r uid records).
Proof.
  unfold summarizeAttendance. rewrite countAttendance_fold. simpl.
  split; [done|]. apply length_filter.
Qed.

(** ** Routes and sidebar *)

(** The sidebar and the route guards agree.  Every entry the sidebar shows
    to a signed-in user has as href the path of a route below the layout,
    behind a slash, and the guards of that route let the user in; and every
    route below the layout whose guards let the user in, the profile apart,
    has an entry in the sidebar shown to that user.  No entry ends on the
    unauthorized page. *)
Theorem sidebar_matches_routes (u : User) :
  (∀ item, item ∈ filteredNavigation (Some u) →
     ∃ path guard page,
       (path, (guard, page)) ∈ layoutRoutes ∧
       navHref item = "/" +:+ path ∧
       enterRoute false (Some u) (guard, page) = ShowPage page) ∧
  (∀ path guard page,
     (path, (guard, page)) ∈ layoutRoutes →
     enterRoute false (Some u) (guard, page) = ShowPage page →
     page ≠ ProfilePage →
     ∃ item, item ∈ filteredNavigation (Some u) ∧
             navHref item = "/" +:+ path).
Proof.
  destruct u as [i n r]. split.
  - intros item Hin.
    destruct r; vm_compute in Hin;
      repeat (apply elem_of_cons in Hin as [->|Hin]);
      try (by apply elem_of_nil in Hin);
      match goal with
      | |- ∃ path guard page, _ ∧ ?h = _ ∧ _ =>
          match h with
          | context [mkNavItem _ "/dashboard" _] =>
              exists "dashboard", None, DashboardPage
          | context [mkNavItem _ "/employees" _] =>
              exists "employees", (Some ["admin"; "manager"]), EmployeesPage
          | context [mkNavItem _ "/tasks" _] =>
              exists "tasks", None, TasksPage
          | context [mkNavItem _ "/attendance" _] =>
              exists "attendance", None, AttendancePage
          | context [mkNavItem _ "/leave" _] =>
              exists "leave", None, LeaveRequestsPage
          | context [mkNavItem _ "/reports" _] =>
              exists "reports", (Some ["admin"; "manager"]), ReportsPage
          | context [mkNavItem _ "/insights" _] =>
              exists "insights", None, InsightsPage
          | context [mkNavItem _ "/organization" _] =>
              exists "organization", (Some ["admin"; "manager"]),
                     OrganizationPage
          end
      end;
      (split; [unfold layoutRoutes; rewrite !elem_of_cons; tauto|]);
      split; by vm_compute.
  - intros path guard page Hin Hv Hp.
    unfold layoutRoutes in Hin.
    repeat (apply elem_of_cons in Hin as [Hin|Hin]);
      try (by apply elem_of_nil in Hin);
      injection Hin as -> -> ->; try done;
      destruct r; vm_compute in Hv; try done;
      match goal with
      | |- ∃ item, item ∈ ?l ∧ navHref item = ?h =>
          cut (h ∈ navHref <$> l);
            [intros (item & -> & ?)%list_elem_of_fmap; eauto|]
      end;
      vm_compute; repeat (first [by left|right]).
Qed.

Lemma enterRoute_shows loading currentUser guard page p :
  enterRoute loading currentUser (guard, page) = ShowPage p ↔
  p = page ∧ loading = false ∧
  ∃ u, currentUser = Some u ∧
       ∀ roles, guard = Some roles →
                roles = [] ∨ roleName (userRole u) ∈ roles.
Proof.
  unfold enterRoute, guardScreen, ProtectedRoute. simpl.
  destruct loading; [split; [done|by intros (_ & ? & _)]|].
  destruct currentUser as [u|]; simpl;
    [|split; [done|by intros (_ & _ & u & ? & _)]].
  destruct guard as [roles|]; simpl.
  - destruct (bool_decide (0 < length roles)) eqn:Hlen;
      destruct (bool_decide (roleName (userRole u) ∈ roles)) eqn:Hrole;
      simpl.
    + apply bool_decide_eq_true in Hrole. split.
      * intros [= <-]. do 2 (split; [done|]). exists u. split; [done|].
        intros ? [= <-]. by right.
      * by intros (-> & _).
    + apply bool_decide_eq_true in Hlen.
      apply bool_decide_eq_false in Hrole. split; [done|].
      intros (_ & _ & u' & [= <-] & Hr).
      destruct (Hr roles eq_refl) as [->|?]; [simpl in Hlen; lia|done].
    + split.
      * intros [= <-]. do 2 (split; [done|]). exists u. split; [done|].
        intros ? [= <-]. apply bool_decide_eq_true in Hrole. by right.
      * by intros (-> & _).
    + apply bool_decide_eq_false in Hlen. split.
      * intros [= <-]. do 2 (split; [done|]). exists u. split; [done|].
        intros ? [= <-]. left. destruct roles; [done|simpl in Hlen; lia].
      * by intros (-> & _).
  - split.
    + intros [= <-]. do 2 (split; [done|]). exists u. by split.
    + by intros (-> & _).
Qed.

(** A route below the layout shows its page exactly when loading has ended,
    a user is signed in and, for the employees, reports and organization
    pages, that user is an admin or a manager; in every other case the
    visitor sees the spinner, the login or the unauthorized page, never
    another page. *)
Theorem guarded_pages_need_role loading currentUser path guard page :
  (path, (guard, page)) ∈ layoutRoutes →
  (enterRoute loading currentUser (guard, page) = ShowPage page ↔
   loading = false ∧
   ∃ u, currentUser = Some u ∧
        (page = EmployeesPage ∨ page = ReportsPage ∨ page = OrganizationPage →
         userRole u = admin ∨ userRole u = manager)) ∧
  (∀ p, enterRoute loading currentUser (guard, page) = ShowPage p →
        p = page).
Proof.
  intros Hin. split; [|by intros p (-> & _)%enterRoute_shows].
  rewrite enterRoute_shows.
  assert (∀ u, roleName (userRole u) ∈ ["admin"; "manager"] ↔
               userRole u = admin ∨ userRole u = manager) as Hrole.
  { intros [i n []]; simpl; rewrite !elem_of_cons, elem_of_nil;
      split; intros H; repeat destruct H as [H|H]; try done; auto. }
  unfold layoutRoutes in Hin.
  repeat (apply elem_of_cons in Hin as [Hin|Hin]);
    try (by apply elem_of_nil in Hin);
    injection Hin as -> -> ->; split.
  all: try (intros (_ & -> & u & -> & Hr); split; [done|];
            exists u; split; [done|]; intros Hpage;
            first [ destruct (Hr _ eq_refl) as [?|?]; [done|by apply Hrole]
                  | by repeat destruct Hpage as [Hpage|Hpage] ]).
  all: intros (-> & u & -> & Hr); split; [done|]; split; [done|];
       exists u; split; [done|]; intros roles Hroles; simplify_eq;
       right; apply Hrole, Hr; auto.
Qed.

(** ** What a built forest refers to *)

Lemma built_node fl f a k :
  sameShape (linked fl) f → k ∈ readArr f a →
  ∃ n, employeeMap f !! k = Some n ∧ emp n ∈ fl ∧ id (emp n) = k.
Proof.
  intros [He Hp] Hk. rewrite (Hp a) in Hk. apply linked_refs in Hk.
  destruct (recordOf_is_Some fl k Hk) as [e Hrec].
  pose proof (He k) as Hk'. rewrite linked_emp, Hrec in Hk'.
  destruct (employeeMap f !! k) as [n|]; [|done].
  simpl in Hk'. injection Hk' as Hemp. exists n. rewrite Hemp.
  split; [done|]. by apply recordOf_Some in Hrec.
Qed.

(** Every reference the returned forest holds, in the root sequence or in
    any children sequence, resolves to a node whose id is that reference
    and whose record is one of the filtered list; with a department
    selected the forest therefore shows no employee of another
    department.  This holds for every input, repeated ids included. *)
Theorem forest_stays_within_filter lc fuel emps dept f :
  buildOrgChart lc fuel emps dept = Some f →
  ∀ a k, k ∈ readArr f a →
    ∃ n, employeeMap f !! k = Some n ∧ id (emp n) = k ∧
         emp n ∈ emps ∧ (dept ≠ "all" → department (emp n) = dept).
Proof.
  intros Hf%buildOrgChart_shape a k Hk.
  destruct (built_node _ f a k Hf Hk) as (n & Hn & Hin & Hid).
  exists n. do 2 (split; [done|]).
  unfold filterEmployees in Hin. case_decide as Hd.
  - apply list_elem_of_filter in Hin as [? ?]. by split.
  - split; [done|]. intros ?. by destruct Hd.
Qed.

(** The chart area shows its "No employees found" message exactly when
    every record of the filtered list names a manager whose record is in
    the filtered list too: then no record is a root, however many records
    there are. *)
Theorem empty_chart_iff_all_managed lc fuel emps dept f st n :
  buildOrgChart lc fuel emps dept = Some f →
  orgChart st = f →
  (∃ message, renderChart n st = Some (EmptyChart message)) ↔
  ∀ e, e ∈ filterEmployees emps dept →
    ∃ r, r ∈ filterEmployees emps dept ∧ managerId e = Some (id r) ∧
         id r ≠ "".
Proof.
  intros [_ Hp]%buildOrgChart_shape <-.
  set (fl := filterEmployees emps dept) in *.
  specialize (Hp RootNodes). simpl in Hp.
  change (ls_rootNodes (linkNodes fl)) with (rootNodes (linked fl)) in Hp.
  rewrite linked_roots in Hp.
  assert ((∃ message, renderChart n st = Some (EmptyChart message)) ↔
          rootNodes (orgChart st) = []) as ->.
  { unfold renderChart. case_decide as Hlen.
    - split; [intros _; by apply nil_length_inv|eauto].
    - split; [|intros Hnil; by rewrite Hnil in Hlen].
      intros [m Hm]. by destruct (mapM _ _). }
  split.
  - intros Hnil e He. rewrite Hnil in Hp.
    apply Permutation_nil_l in Hp. symmetry in Hp.
    apply fmap_nil_inv in Hp.
    destruct (isRootOf fl e) eqn:Hr.
    + exfalso. eapply (filter_nil_not_elem_of _ _ e Hp); [|done].
      by rewrite Hr.
    + apply isRootOf_false in Hr as (k & Hk & Hne & Hin).
      apply list_elem_of_fmap in Hin as (r & -> & Hr). eauto.
  - intros Hall. apply Permutation_nil_r. rewrite Hp.
    rewrite filter_none; [done|].
    intros e He Hr%Is_true_true.
    destruct (Hall e He) as (r & Hr' & Hm & Hne).
    apply isRootOf_true in Hr as [[Hu|Hu]|Hu]; [congruence|congruence|].
    by eapply Hu.
Qed.

Lemma filter_split {A} (P Q : A → Prop) `{!∀ x, Decision (P x)}
    `{!∀ x, Decision (Q x)} (l : list A) :
  (∀ x, P x → Q x → False) →
  filter (λ x, P x ∨ Q x) l ≡ₚ filter P l ++ filter Q l.
Proof.
  intros Hdis. induction l as [|x l IH]; [done|].
  rewrite !filter_cons.
  destruct (decide (P x)) as [HP|HP], (decide (Q x)) as [HQ|HQ].
  - by destruct (Hdis x).
  - rewrite decide_True by tauto. simpl. by rewrite IH.
  - rewrite decide_True by tauto. rewrite IH.
    by rewrite Permutation_middle.
  - by rewrite decide_False by tauto.
Qed.

Lemma concat_filters {K A} (P : K → A → Prop)
    `{!∀ k x, Decision (P k x)} (ks : list K) (l : list A) :
  NoDup ks → (∀ k k' x, P k x → P k' x → k = k') →
  concat ((λ k, filter (P k) l) <$> ks)
  ≡ₚ filter (λ x, Exists (λ k, P k x) ks) l.
Proof.
  intros Hnd Hfun. induction Hnd as [|k ks Hk _ IH]; simpl.
  - rewrite filter_none; [done|]. intros x _ Hx. by apply Exists_nil in Hx.
  - rewrite IH, <- filter_split.
    + match goal with |- ?a ≡ₚ ?b => replace a with b; [done|] end.
      apply list_filter_iff. intros x. by rewrite Exists_cons.
    + intros x HP (k' & Hk' & HP')%Exists_exists.
      by rewrite (Hfun k k' x HP HP') in Hk.
Qed.

(** Linking neither drops nor adds a record, whatever the ids are: the root
    sequence together with the children sequences of all nodes holds the
    ids of the filtered records, each id as often as there are records
    with it.  In particular the lengths of these sequences add up to the
    length of the filtered list. *)
Theorem every_record_takes_one_slot lc fuel emps dept f :
  buildOrgChart lc fuel emps dept = Some f →
  rootNodes f ++
  concat ((λ k, readArr f (ChildrenOf k))
            <$> remove_dups (id <$> filterEmployees emps dept))
  ≡ₚ id <$> filterEmployees emps dept.
Proof.
  intros [_ Hp]%buildOrgChart_shape.
  set (fl := filterEmployees emps dept) in *.
  set (ks := remove_dups (id <$> fl)).
  assert (concat ((λ k, readArr f (ChildrenOf k)) <$> ks)
          ≡ₚ id <$> concat ((λ k, filter (λ e, reportsTo fl k e) fl) <$> ks))
    as ->.
  { induction ks as [|k ks IH]; simpl; [done|].
    rewrite fmap_app, IH, (Hp (ChildrenOf k)), linked_children. done. }
  change (rootNodes f) with (readArr f RootNodes). rewrite (Hp RootNodes).
  change (readArr (linked fl) RootNodes) with (rootNodes (linked fl)).
  rewrite linked_roots, <- fmap_app. apply fmap_Permutation.
  rewrite concat_filters.
  - rewrite <- (filter_app_complement (λ e, isRootOf fl e) fl) at 3.
    apply Permutation_app; [done|].
    match goal with |- ?a ≡ₚ ?b => replace b with a; [done|] end.
    apply list_filter_iff. intros e. rewrite Exists_exists. split.
    + intros (k & _ & [Hr _]%Is_true_true%reportsTo_true).
      rewrite Hr. by intros [].
    + intros Hr. destruct (isRootOf fl e) eqn:Hroot; [by destruct Hr|].
      destruct (isRootOf_false _ _ Hroot) as (k & Hk & _ & Hin).
      exists k. split; [by apply elem_of_remove_dups|].
      by apply Is_true_true, reportsTo_true.
  - apply NoDup_remove_dups.
  - intros k k' e [_ H1]%Is_true_true%reportsTo_true
                  [_ H2]%Is_true_true%reportsTo_true. congruence.
Qed.

(** ** Rendering the chart *)

Lemma renderOrgNode_S m E h k d :
  renderOrgNode (S m) E h k d =
  n ← employeeMap h !! k;
  if bool_decide (0 < length (children n)) && bool_decide (id (emp n) ∈ E)
  then below ← mapM (λ child, renderOrgNode m E h child (d + 1))
                    (children n);
       Some ((id (emp n), d) :: concat below)
  else Some [(id (emp n), d)].
Proof. done. Qed.

Lemma mapM_Forall2 {A B C} (f : A → option B) (R : B → C → Prop)
    (P : A → C → Prop) ks ls :
  Forall2 P ks ls →
  (∀ c lc, c ∈ ks → P c lc → ∃ b, f c = Some b ∧ R b lc) →
  ∃ bs, mapM f ks = Some bs ∧ Forall2 R bs ls.
Proof.
  induction 1 as [|c lc ks ls Hc _ IH]; intros Hf.
  - exists []. by split; [|constructor].
  - destruct (Hf c lc) as (b & Hb & HR); [left|done|].
    destruct IH as (bs & Hbs & Hall).
    { intros c' lc' Hin. apply Hf. by right. }
    exists (b :: bs). split; [simpl; by rewrite Hb, Hbs|by constructor].
Qed.

Section Render.
Context (ids : list string) (parent : string → option string) (h : Forest)
        (E : gset string).
Hypothesis parent_dom : ∀ x k, parent x = Some k → x ∈ ids.
Hypothesis kids_spec :
  ∀ k x, x ∈ readArr h (ChildrenOf k) ↔ parent x = Some k.
Hypothesis node_id :
  ∀ k, k ∈ ids → ∃ n, employeeMap h !! k = Some n ∧ id (emp n) = k.

Local Abbreviation follows :=
  (λ (cards : list (string * nat)) (l : list string),
     cards.*1 `sublist_of` l ∧
     (∀ k d, (k, d) ∈ cards → level ids parent d k) ∧
     ((∀ x, x ∈ l → x ∈ E) → cards.*1 = l)).

Lemma follows_concat cs ls :
  Forall2 follows cs ls → follows (concat cs) (concat ls).
Proof.
  induction 1 as [|c l cs ls (Hsub & Hlvl & Heq) _ (IHsub & IHlvl & IHeq)];
    simpl.
  - split; [done|]. split; [|done]. intros k d Hin. by apply elem_of_nil in Hin.
  - rewrite fmap_app. split; [by apply sublist_app|]. split.
    + intros k d [?|?]%elem_of_app; eauto.
    + intros HE. f_equal.
      * apply Heq. intros x Hx. apply HE, elem_of_app. by left.
      * apply IHeq. intros x Hx. apply HE, elem_of_app. by right.
Qed.

(** The cards below a node follow the walk below it. *)
Lemma render_follows m : ∀ d k l,
  level ids parent d k → walk m h k = Some l →
  ∃ cards, renderOrgNode m E h k d = Some cards ∧ follows cards l.
Proof.
  induction m as [|m IH]; intros d k l Hk Hw; [done|].
  rewrite walk_S in Hw.
  destruct (mapM (walk m h) (readArr h (ChildrenOf k))) as [ls|] eqn:Hls;
    [|done].
  simpl in Hw. injection Hw as <-.
  destruct (node_id k) as (n & Hn & Hid);
    [by eapply level_in_ids|].
  assert (readArr h (ChildrenOf k) = children n) as Hkids
    by (simpl; by rewrite Hn).
  rewrite renderOrgNode_S, Hn. simpl. rewrite Hid.
  apply mapM_Some_1 in Hls. rewrite Hkids in Hls.
  destruct (bool_decide (0 < length (children n))) eqn:Hc;
    destruct (bool_decide (k ∈ E)) eqn:He; simpl.
  1: { destruct (mapM_Forall2
                   (λ child, renderOrgNode m E h child (d + 1))
                   follows _ _ _ Hls) as (below & -> & Hall).
       { intros c lc Hc' Hwc. apply IH; [|done].
         rewrite Nat.add_1_r. eapply level_child; [|done].
         apply kids_spec. by rewrite Hkids. }
       simpl. eexists. split; [done|].
       destruct (follows_concat _ _ Hall) as (Hsub & Hlvl & Heq).
       simpl. split; [by constructor|]. split.
       - intros k' d' [[= -> ->]|?]%elem_of_cons; eauto.
       - intros HE. f_equal. apply Heq. intros x Hx. apply HE. by right. }
  all: eexists; (split; [done|]); simpl;
    (split; [apply sublist_skip, sublist_nil_l|]);
    (split; [by intros k' d' [= -> ->]%list_elem_of_singleton|]);
    intros HE.
  - apply bool_decide_eq_false in He. destruct He. apply HE. left.
  - apply bool_decide_eq_false in Hc.
    destruct (children n); [|simpl in Hc; lia].
    by apply Forall2_nil_inv_l in Hls as ->.
  - apply bool_decide_eq_false in He. destruct He. apply HE. left.
Qed.

Lemma chart_follows n l :
  (∀ r, r ∈ rootNodes h → level ids parent 0 r) →
  forestIds n h = Some l →
  ∃ cs, mapM (λ node, renderOrgNode n E h node 0) (rootNodes h) = Some cs ∧
        follows (concat cs) l.
Proof.
  intros Hroots Hl. unfold forestIds in Hl.
  destruct (mapM (walk n h) (rootNodes h)) as [ls|] eqn:Hls; [|done].
  simpl in Hl. injection Hl as <-. apply mapM_Some_1 in Hls.
  destruct (mapM_Forall2 (λ node, renderOrgNode n E h node 0)
              follows _ _ _ Hls) as (cs & Hcs & Hall).
  { intros r lr Hr Hw. apply render_follows; [by apply Hroots|done]. }
  exists cs. split; [done|]. by apply follows_concat.
Qed.
End Render.

Lemma built_chart lc fuel emps dept f E n :
  NoDup (id <$> filterEmployees emps dept) →
  buildOrgChart lc fuel emps dept = Some f →
  length (filterEmployees emps dept) ≤ n →
  ∃ cs l,
    mapM (λ node, renderOrgNode n E f node 0) (rootNodes f) = Some cs ∧
    forestIds n f = Some l ∧ NoDup l ∧
    (∀ x, x ∈ l → x ∈ id <$> filterEmployees emps dept) ∧
    (concat cs).*1 `sublist_of` l ∧
    (∀ k d, (k, d) ∈ concat cs →
            level (id <$> filterEmployees emps dept)
                  (managerOf (filterEmployees emps dept)) d k) ∧
    ((∀ x, x ∈ l → x ∈ E) → (concat cs).*1 = l).
Proof.
  intros Hnd Hs%buildOrgChart_shape Hn.
  set (fl := filterEmployees emps dept) in *.
  destruct (built_forestIds fl f n Hnd Hs Hn) as (l & Hl & Hlnd & Hlx).
  destruct (chart_follows (id <$> fl) (managerOf fl) f E) with (n := n) (l := l)
    as (cs & Hcs & Hsub & Hlvl & Heq).
  - apply managerOf_dom.
  - by apply built_kids_spec.
  - intros k Hk. destruct (recordOf_is_Some fl k Hk) as [e He].
    pose proof (proj1 Hs k) as Hk'. rewrite linked_emp, He in Hk'.
    destruct (employeeMap f !! k) as [nd|]; [|done].
    simpl in Hk'. injection Hk' as Hemp. exists nd. rewrite Hemp.
    split; [done|]. by apply recordOf_Some in He as [_ ?].
  - intros r [Hr Hp]%(built_roots_spec fl Hnd f Hs). by exists r.
  - done.
  - exists cs, l. do 3 (split; [done|]). split; [|done].
    intros x (d & Hd)%Hlx%reachesTop_level.
    eapply level_in_ids; [apply managerOf_dom|done].
Qed.

(** Whatever is expanded, on a list with unique ids the chart renders: its
    cards appear in the order of the walk over the forest, no node gets two
    cards, and the nesting level of a card is the number of manager edges
    from its node up to the root. *)
Theorem chart_cards_follow_forest lc fuel emps dept f st n :
  NoDup (id <$> filterEmployees emps dept) →
  buildOrgChart lc fuel emps dept = Some f →
  orgChart st = f → rootNodes f ≠ [] →
  length (filterEmployees emps dept) ≤ n →
  ∃ cards l,
    renderChart n st = Some (ChartCards cards) ∧
    forestIds n f = Some l ∧
    cards.*1 `sublist_of` l ∧ NoDup cards.*1 ∧
    ∀ k d, (k, d) ∈ cards →
           level (id <$> filterEmployees emps dept)
                 (managerOf (filterEmployees emps dept)) d k.
Proof.
  intros Hnd Hf <- Hroots Hn.
  destruct (built_chart lc fuel emps dept (orgChart st) (expandedNodes st) n
              Hnd Hf Hn) as (cs & l & Hcs & Hl & Hlnd & _ & Hsub & Hlvl & _).
  exists (concat cs), l. split.
  { unfold renderChart. rewrite decide_False, Hcs; [done|].
    by destruct (rootNodes (orgChart st)). }
  do 2 (split; [done|]). split; [|done]. by eapply sublist_NoDup.
Qed.

(** After "Expand All" the chart shows the whole forest: on a snapshot with
    unique ids the cards are the nodes of the walk over the forest, all of
    them and in that order. *)
Theorem expand_all_shows_forest lc fuel st f n :
  NoDup (id <$> employees st) →
  buildOrgChart lc fuel (employees st) (selectedDepartment st) = Some f →
  orgChart st = f → rootNodes f ≠ [] →
  length (employees st) ≤ n →
  ∃ cards l,
    renderChart n (expandAll st) = Some (ChartCards cards) ∧
    forestIds n f = Some l ∧ cards.*1 = l.
Proof.
  intros Hnd Hf <- Hroots Hn.
  assert (filterEmployees (employees st) (selectedDepartment st)
          `sublist_of` employees st) as Hsub.
  { unfold filterEmployees. case_decide; [apply sublist_filter|done]. }
  destruct (built_chart lc fuel (employees st) (selectedDepartment st)
              (orgChart st) (list_to_set (id <$> employees st)) n)
    as (cs & l & Hcs & Hl & _ & Hin & _ & _ & Heq); [|done|..].
  { eapply sublist_NoDup; [exact Hnd|]. by apply fmap_sublist. }
  { etrans; [|exact Hn]. by apply sublist_length. }
  exists (concat cs), l. split.
  { unfold renderChart, expandAll. simpl. rewrite decide_False, Hcs; [done|].
    by destruct (rootNodes (orgChart st)). }
  split; [done|]. apply Heq. intros x Hx%Hin.
  apply elem_of_list_to_set.
  eapply elem_of_sublist; [exact Hx|]. by apply fmap_sublist.
Qed.

(** With an empty expansion set the rendering stops at the roots. *)
Lemma collapsed_render lc fuel emps dept f st n :
  buildOrgChart lc fuel emps dept = Some f →
  orgChart st = f → rootNodes f ≠ [] → 0 < n →
  renderChart n (collapseAll st)
  = Some (ChartCards ((λ k, (k, 0)) <$> rootNodes f)).
Proof.
  intros Hs%buildOrgChart_shape <- Hroots Hn.
  destruct n as [|n]; [lia|].
  unfold renderChart, collapseAll. simpl.
  rewrite decide_False by (by destruct (rootNodes (orgChart st))).
  assert (∀ ks, (∀ k, k ∈ ks → k ∈ rootNodes (orgChart st)) →
            mapM (λ node, renderOrgNode (S n) ∅ (orgChart st) node 0) ks
            = Some ((λ k, [(k, 0)]) <$> ks)) as Hmap.
  { induction ks as [|k ks IH]; intros Hks; [done|].
    destruct (built_node _ (orgChart st) RootNodes k Hs) as (nd & Hnd & _ & Hid);
      [apply Hks; left|].
    change (mapM ?g (k :: ks)) with
      (y ← g k; r ← mapM g ks; Some (y :: r)).
    rewrite IH by (intros k' ?; apply Hks; by right).
    rewrite renderOrgNode_S, Hnd. simpl. rewrite Hid.
    rewrite (bool_decide_eq_false_2 (k ∈ ∅)) by apply not_elem_of_empty.
    by rewrite andb_false_r. }
  rewrite Hmap by done. simpl. do 2 f_equal.
  generalize (rootNodes (orgChart st)). intros ks.
  induction ks as [|k ks IH]; [done|]. simpl. by f_equal.
Qed.

(** After "Collapse All", on a list with unique ids, [renderChart] returns
    one card per root and none below: the roots in the order of the root
    sequence, each at level 0, under pairwise different keys. *)
Theorem collapse_all_shows_roots lc fuel emps dept f st n :
  NoDup (id <$> filterEmployees emps dept) →
  buildOrgChart lc fuel emps dept = Some f →
  orgChart st = f → rootNodes f ≠ [] → 0 < n →
  renderChart n (collapseAll st)
    = Some (ChartCards ((λ k, (k, 0)) <$> rootNodes f)) ∧
  NoDup (rootNodes f).
Proof.
  intros Hnd Hf Hst Hroots Hn.
  split; [by eapply collapsed_render|].
  eapply built_roots_nodup; [exact Hnd|]. by eapply buildOrgChart_shape.
Qed.

(** ** The further properties on the sample snapshots *)

Lemma forest_stays_within_filter_witness :
  ∃ f, buildOrgChart codePointCompare 3 salesUnderEng "Sales" = Some f ∧
       ∀ a k, k ∈ readArr f a →
         ∃ n, employeeMap f !! k = Some n ∧ id (emp n) = k ∧
              emp n ∈ salesUnderEng ∧
              ("Sales" ≠ "all" → department (emp n) = "Sales").
Proof.
  eexists. split; [vm_compute; reflexivity|].
  apply (forest_stays_within_filter codePointCompare 3 salesUnderEng "Sales").
  vm_compute. reflexivity.
Defined.

Lemma empty_chart_iff_all_managed_witness :
  ∃ f, buildOrgChart codePointCompare 2 selfManaged "all" = Some f ∧
       ((∃ message,
           renderChart 1 (mkPageState selfManaged f ∅ "all" ["Eng"])
           = Some (EmptyChart message)) ↔
        ∀ e, e ∈ filterEmployees selfManaged "all" →
          ∃ r, r ∈ filterEmployees selfManaged "all" ∧
               managerId e = Some (id r) ∧ id r ≠ "").
Proof.
  eexists. split; [vm_compute; reflexivity|].
  eapply (empty_chart_iff_all_managed codePointCompare 2 selfManaged "all").
  - vm_compute. reflexivity.
  - reflexivity.
Defined.

Lemma every_record_takes_one_slot_witness :
  ∃ f, buildOrgChart codePointCompare 1 sharedId "all" = Some f ∧
       rootNodes f ++
       concat ((λ k, readArr f (ChildrenOf k))
                 <$> remove_dups (id <$> filterEmployees sharedId "all"))
       ≡ₚ id <$> filterEmployees sharedId "all".
Proof.
  eexists. split; [vm_compute; reflexivity|].
  apply (every_record_takes_one_slot codePointCompare 1 sharedId "all").
  vm_compute. reflexivity.
Defined.

Lemma chart_cards_follow_forest_witness :
  ∃ f, buildOrgChart codePointCompare 5 fourPeople "all" = Some f ∧
       NoDup (id <$> filterEmployees fourPeople "all") ∧
       rootNodes f ≠ [] ∧
       ∃ cards l,
         renderChart 4 (mkPageState fourPeople f {["a"]} "all" ["Eng"])
         = Some (ChartCards cards) ∧
         forestIds 4 f = Some l ∧
         cards.*1 `sublist_of` l ∧ NoDup cards.*1 ∧
         ∀ k d, (k, d) ∈ cards →
                level (id <$> filterEmployees fourPeople "all")
                      (managerOf (filterEmployees fourPeople "all")) d k.
Proof.
  eexists. split; [vm_compute; reflexivity|].
  split; [compute_done|]. split; [by vm_compute|].
  eapply (chart_cards_follow_forest codePointCompare 5 fourPeople "all").
  - compute_done.
  - vm_compute. reflexivity.
  - reflexivity.
  - by vm_compute.
  - simpl. lia.
Defined.

Lemma expand_all_shows_forest_witness :
  ∃ f, buildOrgChart codePointCompare 5 fourPeople "all" = Some f ∧
       ∃ cards l,
         renderChart 4 (expandAll (mkPageState fourPeople f ∅ "all" ["Eng"]))
         = Some (ChartCards cards) ∧
         forestIds 4 f = Some l ∧ cards.*1 = l.
Proof.
  eexists. split; [vm_compute; reflexivity|].
  eapply (expand_all_shows_forest codePointCompare 5
           (mkPageState fourPeople _ ∅ "all" ["Eng"])).
  - compute_done.
  - vm_compute. reflexivity.
  - reflexivity.
  - by vm_compute.
  - simpl. lia.
Defined.

Lemma collapse_all_shows_roots_witness :
  NoDup (id <$> filterEmployees mutualManagers "all") ∧
  ∃ f, buildOrgChart codePointCompare 4 mutualManagers "all" = Some f ∧
       renderChart 1
         (collapseAll (mkPageState mutualManagers f {["p"]} "all" ["Eng"]))
       = Some (ChartCards ((λ k, (k, 0)) <$> rootNodes f)) ∧
       NoDup (rootNodes f).
Proof.
  split; [compute_done|].
  eexists. split; [vm_compute; reflexivity|].
  eapply (collapse_all_shows_roots codePointCompare 4 mutualManagers "all").
  - compute_done.
  - vm_compute. reflexivity.
  - reflexivity.
  - by vm_compute.
  - lia.
Defined.

Lemma guarded_pages_need_role_witness :
  ("organization", (Some ["admin"; "manager"], OrganizationPage))
    ∈ layoutRoutes ∧
  enterRoute false (Some (mkUser "u1" "Mia" manager))
             (Some ["admin"; "manager"], OrganizationPage)
    = ShowPage OrganizationPage ∧
  ∀ p, enterRoute false (Some (mkUser "u2" "Eve" employee))
                  (Some ["admin"; "manager"], OrganizationPage)
       = ShowPage p → p = OrganizationPage.
Proof.
  assert (("organization", (Some ["admin"; "manager"], OrganizationPage))
            ∈ layoutRoutes) as Hin
    by (unfold layoutRoutes; rewrite !elem_of_cons; tauto).
  split; [exact Hin|]. split.
  - apply (guarded_pages_need_role false (Some (mkUser "u1" "Mia" manager))
             "organization" _ _ Hin).
    split; [done|]. eexists. split; [done|]. intros _. by right.
  - apply (guarded_pages_need_role false (Some (mkUser "u2" "Eve" employee))
             "organization" _ _ Hin).
Defined.

(** The chart of the four-people snapshot with only Alice expanded: Alice,
    then Bob and Dave one level in; Carol stays hidden below Bob. *)
Example fourPeople_chart :
  ∃ f, buildOrgChart codePointCompare 5 fourPeople "all" = Some f ∧
       renderChart 4 (mkPageState fourPeople f {["a"]} "all" ["Eng"])
       = Some (ChartCards [("a", 0); ("b", 1); ("d", 1)]).
Proof.
  eexists. split; [vm_compute; reflexivity|]. by vm_compute.
Qed.

(** The organization route sends an employee to the unauthorized page and
    a visitor without a session to the login. *)
Example organization_route_guard :
  enterRoute false (Some (mkUser "u2" "Eve" employee))
             (Some ["admin"; "manager"], OrganizationPage)
    = RedirectTo "/unauthorized" ∧
  enterRoute false None (Some ["admin"; "manager"], OrganizationPage)
    = RedirectTo "/login" ∧
  enterRoute true None (Some ["admin"; "manager"], OrganizationPage)
    = ShowSpinner.
Proof. by vm_compute. Qed.
